(** * ui_manager: layer stack, invalidation engine and redraw scheduler

    Shallow embedding of [src/ui_manager.cpp].

    The C++ code keeps a process-wide [ui_stack], a vector of references to
    [ui_adaptor] objects that live elsewhere.  The flags of an object are
    mutated through those references, so the embedding separates

    - the object store, a total map from addresses to [ui_adaptor] records, and
    - the stack, a list of addresses, bottom first.

    Coordinates are C++ [int]s; they are only compared and (in [position])
    added, and signed overflow is undefined in C++, so they are embedded
    as [Z]. *)

From stdpp Require Import base tactics numbers functions list.

Local Open Scope Z_scope.

(** ** Geometry: [point] and [rectangle<point>] *)

Record point := Point { x : Z; y : Z }.

Definition point_zero : point := Point 0 0.

Definition point_add (a b : point) : point := Point (x a + x b) (y a + y b).

Record rectangle := Rectangle { p_min : point; p_max : point }.

(** [contains( lhs, rhs )]: every edge of [rhs] is within [lhs]. *)
Definition contains (lhs rhs : rectangle) : bool :=
  (x (p_min rhs) >=? x (p_min lhs)) && (x (p_max rhs) <=? x (p_max lhs)) &&
  (y (p_min rhs) >=? y (p_min lhs)) && (y (p_max rhs) <=? y (p_max lhs)).

(** [overlap( lhs, rhs )]: strict inequalities, touching edges do not overlap. *)
Definition overlap (lhs rhs : rectangle) : bool :=
  (x (p_min lhs) <? x (p_max rhs)) && (y (p_min lhs) <? y (p_max rhs)) &&
  (x (p_min rhs) <? x (p_max lhs)) && (y (p_min rhs) <? y (p_max lhs)).

(** The guard at the head of [ui_adaptor::invalidate]. *)
Definition degenerate (rect : rectangle) : bool :=
  (x (p_min rect) >=? x (p_max rect)) || (y (p_min rect) >=? y (p_max rect)).

(** ** Objects, store and world *)

Definition addr := nat.

(** A [std::function] member is represented by the name of the callback it
    holds ([None] for an empty function); the scheduler section below takes
    the meaning of the names as a parameter. *)
Definition cb_id := nat.

Record ui_adaptor := UiAdaptor {
  dimensions : rectangle;
  disabling_uis_below : bool;
  invalidated : bool;
  deferred_resize : bool;
  redraw_cb : option cb_id;
  screen_resized_cb : option cb_id
}.

(** Calls that leave the module, in the order the code makes them. *)
Inductive event :=
  | ReinitializeFramebuffer
  | EmscriptenSleep (ms : Z).

Definition store := addr → ui_adaptor.

Record world := World {
  objs : store;
  ui_stack : list addr;
  test_mode : bool;
  events : list event
}.

Definition with_invalidated (b : bool) (u : ui_adaptor) : ui_adaptor :=
  UiAdaptor (dimensions u) (disabling_uis_below u) b (deferred_resize u)
            (redraw_cb u) (screen_resized_cb u).

Definition with_dimensions (r : rectangle) (u : ui_adaptor) : ui_adaptor :=
  UiAdaptor r (disabling_uis_below u) (invalidated u) (deferred_resize u)
            (redraw_cb u) (screen_resized_cb u).

Definition with_deferred_resize (b : bool) (u : ui_adaptor) : ui_adaptor :=
  UiAdaptor (dimensions u) (disabling_uis_below u) (invalidated u) b
            (redraw_cb u) (screen_resized_cb u).

(** [ui.invalidated = b] through a reference to the object at [a]. *)
Definition set_inv (a : addr) (b : bool) (o : store) : store :=
  <[a := with_invalidated b (o a)]> o.

Definition with_objs (o : store) (w : world) : world :=
  World o (ui_stack w) (test_mode w) (events w).

Definition set_invalidated (a : addr) (b : bool) (w : world) : world :=
  with_objs (set_inv a b (objs w)) w.

Definition set_dimensions (a : addr) (r : rectangle) (w : world) : world :=
  with_objs (<[a := with_dimensions r (objs w a)]> (objs w)) w.

Definition set_deferred_resize (a : addr) (b : bool) (w : world) : world :=
  with_objs (<[a := with_deferred_resize b (objs w a)]> (objs w)) w.

Definition log_event (e : event) (w : world) : world :=
  World (objs w) (ui_stack w) (test_mode w) (events w ++ [e]).

(** ** The enabled range *)

(** The reverse scan [for( ; rfirst != crend(); ++rfirst )] that stops at
    the first UI with [disabling_uis_below]: the number of increments made, or
    [None] when the scan reached [crend()]. *)
Fixpoint rscan (o : store) (rstack : list addr) : option nat :=
  match rstack with
  | [] => None
  | a :: r => if disabling_uis_below (o a) then Some 0%nat else S <$> rscan o r
  end.

(** [rfirst == crend() ? cbegin() : std::prev( rfirst.base() )], as an index. *)
Definition first_index (o : store) (stack : list addr) : nat :=
  match rscan o (reverse stack) with
  | None => 0%nat
  | Some r => (length stack - 1 - r)%nat
  end.

Definition enabled (o : store) (stack : list addr) : list addr :=
  drop (first_index o stack) stack.

(** ** invalidation_consistency_and_optimization *)

(** The body of the inner loop for one pair of iterators. *)
Definition pair_step (upper : addr) (o : store) (lower : addr) : store :=
  let o1 :=
    if negb (invalidated (o upper)) && invalidated (o lower) &&
       overlap (dimensions (o upper)) (dimensions (o lower))
    then set_inv upper true o else o in
  if invalidated (o1 upper) && invalidated (o1 lower) &&
     contains (dimensions (o1 upper)) (dimensions (o1 lower))
  then set_inv lower false o1 else o1.

(** [for( it_lower = first; it_lower < it_upper; ++it_lower )]: [lowers] is
    the part of the enabled range below [upper]. *)
Definition inner_loop (upper : addr) (lowers : list addr) (o : store) : store :=
  foldl (pair_step upper) o lowers.

(** [for( it_upper = first; it_upper < cend(); ++it_upper )]: [seen] is the
    part of the enabled range already passed, [rest] the part from
    [it_upper] on. *)
Fixpoint outer_loop (seen rest : list addr) (o : store) : store :=
  match rest with
  | [] => o
  | upper :: rest' => outer_loop (seen ++ [upper]) rest' (inner_loop upper seen o)
  end.

Definition consistency (stack : list addr) (o : store) : store :=
  outer_loop [] (enabled o stack) o.

Definition invalidation_consistency_and_optimization (w : world) : world :=
  with_objs (consistency (ui_stack w) (objs w)) w.

(** ** ui_adaptor::invalidate_ui *)

(** The search [for( it = cbegin(); it < cend(); ++it ) if( &it->get() == this ) break;]
    returns the UIs from [std::next( it )] on, or [None] when [it] reached
    the end. *)
Fixpoint uis_above (self : addr) (stack : list addr) : option (list addr) :=
  match stack with
  | [] => None
  | a :: r => if decide (a = self) then Some r else uis_above self r
  end.

Definition occluded_by (o : store) (self : addr) (uppers : list addr) : bool :=
  existsb (λ u, contains (dimensions (o u)) (dimensions (o self))) uppers.

Definition invalidate_ui (self : addr) (w : world) : world :=
  if invalidated (objs w self) then w
  else match uis_above self (ui_stack w) with
       | None => w
       | Some uppers =>
           if occluded_by (objs w) self uppers then w
           else invalidation_consistency_and_optimization
                  (set_invalidated self true w)
       end.

(** ** ui_adaptor::invalidate *)

Definition mark_step (rect : rectangle) (o : store) (a : addr) : store :=
  if negb (invalidated (o a)) && overlap (dimensions (o a)) rect
  then set_inv a true o else o.

Definition mark_region (rect : rectangle) (stack : list addr) (o : store) : store :=
  foldl (mark_step rect) o stack.

Definition invalidate (rect : rectangle) (reenable_uis_below : bool) (w : world) : world :=
  if degenerate rect then
    if reenable_uis_below then invalidation_consistency_and_optimization w else w
  else
    invalidation_consistency_and_optimization
      (with_objs (mark_region rect (ui_stack w) (objs w)) w).

(** ** ui_adaptor::position *)

(** Under [TILES] the rectangle comes from [get_window_dimensions], which
    lives outside this file; only the two members that [position] reads are
    kept. *)
Record window_dimensions := WindowDimensions {
  window_pos_pixel : point;
  window_size_pixel : point
}.

Inductive build :=
  | Curses
  | Tiles (get_window_dimensions : point → point → window_dimensions).

Definition new_dimensions (b : build) (topleft size : point) : rectangle :=
  match b with
  | Tiles get_window_dimensions =>
      let dim := get_window_dimensions topleft size in
      Rectangle (window_pos_pixel dim)
                (point_add (window_pos_pixel dim) (window_size_pixel dim))
  | Curses => Rectangle topleft (point_add topleft size)
  end.

Definition position (b : build) (topleft size : point) (self : addr) (w : world) : world :=
  let old_dimensions := dimensions (objs w self) in
  let w1 := set_dimensions self (new_dimensions b topleft size) w in
  let w2 := set_invalidated self true w1 in
  invalidate old_dimensions false w2.

(** ** Callback registration, mark_resize and reset *)

Definition with_redraw_cb (f : option cb_id) (u : ui_adaptor) : ui_adaptor :=
  UiAdaptor (dimensions u) (disabling_uis_below u) (invalidated u)
            (deferred_resize u) f (screen_resized_cb u).

Definition with_screen_resized_cb (f : option cb_id) (u : ui_adaptor) : ui_adaptor :=
  UiAdaptor (dimensions u) (disabling_uis_below u) (invalidated u)
            (deferred_resize u) (redraw_cb u) f.

(** [redraw_cb = fun]; [None] stands for [nullptr]. *)
Definition on_redraw (f : option cb_id) (self : addr) (w : world) : world :=
  with_objs (<[self := with_redraw_cb f (objs w self)]> (objs w)) w.

Definition on_screen_resize (f : option cb_id) (self : addr) (w : world) : world :=
  with_objs (<[self := with_screen_resized_cb f (objs w self)]> (objs w)) w.

Definition mark_resize (self : addr) (w : world) : world :=
  set_deferred_resize self true w.

Definition reset (b : build) (self : addr) (w : world) : world :=
  position b point_zero point_zero self
    (on_redraw None self (on_screen_resize None self w)).

(** ** Construction and destruction *)

(** Both constructors: the three flags are initialised and the object is
    appended to the stack.  The members the initialiser list does not name
    ([dimensions] and the two callbacks) are default-constructed by their
    own types; the store supplies them at the new address. *)
Definition construct (self : addr) (disable_uis_below : bool) (w : world) : world :=
  World (<[self := UiAdaptor (dimensions (objs w self)) disable_uis_below false false
                             (redraw_cb (objs w self)) (screen_resized_cb (objs w self))]>
           (objs w))
        (ui_stack w ++ [self]) (test_mode w) (events w).

(** [ui_stack.erase] at the match found by the reverse scan of the
    destructor: the last occurrence of [self] is removed. *)
Fixpoint erase_last (self : addr) (stack : list addr) : option (list addr) :=
  match stack with
  | [] => None
  | a :: r =>
      match erase_last self r with
      | Some r' => Some (a :: r')
      | None => if decide (a = self) then Some r else None
      end
  end.

Definition destruct_ui (self : addr) (w : world) : world :=
  match erase_last self (ui_stack w) with
  | Some stack' =>
      invalidate (dimensions (objs w self)) (disabling_uis_below (objs w self))
                 (World (objs w) stack' (test_mode w) (events w))
  | None => w
  end.

(** ** The redraw scheduler *)

Section scheduler.

(** What running the callback named [cb] on the UI at an address does to
    the world.  A callback is arbitrary client code: it may reposition,
    create, remove or invalidate UIs.  The store is total, so an object
    that a callback destroys can still be read afterwards; in C++ the
    reference held by the copied stack would dangle. *)
Variable run_redraw_cb : cb_id → addr → world → world.
Variable run_resize_cb : cb_id → addr → world → world.

Definition has_cb (f : option cb_id) : bool :=
  match f with Some _ => true | None => false end.

(** Body of the second loop of the resize phase. *)
Definition resize_step (w : world) (a : addr) : world :=
  if deferred_resize (objs w a) then
    let w' := match screen_resized_cb (objs w a) with
              | Some cb => run_resize_cb cb a w
              | None => w
              end in
    set_deferred_resize a false w'
  else w.

(** Body of the second loop of the redraw phase. *)
Definition redraw_step (w : world) (a : addr) : world :=
  if invalidated (objs w a) then
    let w' := match redraw_cb (objs w a) with
              | Some cb => run_redraw_cb cb a w
              | None => w
              end in
    set_invalidated a false w'
  else w.

Definition needs_resize (range : list addr) (w : world) : bool :=
  existsb (λ a, deferred_resize (objs w a) && has_cb (screen_resized_cb (objs w a))) range.

Definition needs_redraw (range : list addr) (w : world) : bool :=
  existsb (λ a, invalidated (objs w a) && has_cb (redraw_cb (objs w a))) range.

(** [range] is [first_enabled .. ui_stack_orig->end()].  No callback runs
    before the first copy is taken, so the copy, when there is one, holds
    the addresses the live stack held on entry; the objects behind them
    are the live ones. *)
Definition resize_phase (range : list addr) (w : world) : world :=
  if needs_resize range w
  then log_event ReinitializeFramebuffer (foldl resize_step w range)
  else w.

Definition redraw_phase (range : list addr) (w : world) : world :=
  if needs_redraw range w then foldl redraw_step w range else w.

Definition redraw_invalidated (w : world) : world :=
  if test_mode w || bool_decide (ui_stack w = []) then w
  else
    let range := enabled (objs w) (ui_stack w) in
    log_event (EmscriptenSleep 1) (redraw_phase range (resize_phase range w)).

Definition redraw (w : world) : world :=
  redraw_invalidated
    match last (ui_stack w) with
    | Some top => set_invalidated top true w
    | None => w
    end.

Definition mark_all_resize (w : world) : world :=
  foldl (λ w a, set_deferred_resize a true w) w (ui_stack w).

Definition screen_resized (w : world) : world := redraw (mark_all_resize w).

(** No redraw callback invalidates a layer. *)
Definition redraw_cbs_do_not_invalidate : Prop :=
  ∀ cb self w a,
    invalidated (objs (run_redraw_cb cb self w) a) = true →
    invalidated (objs w a) = true.

(** No resize callback sets a [deferred_resize] flag. *)
Definition resize_cbs_do_not_mark : Prop :=
  ∀ cb self w a,
    deferred_resize (objs (run_resize_cb cb self w) a) = true →
    deferred_resize (objs w a) = true.

(** The callbacks leave the object at [a] alone. *)
Definition callbacks_keep (a : addr) : Prop :=
  (∀ cb self w, objs (run_redraw_cb cb self w) a = objs w a) ∧
  (∀ cb self w, objs (run_resize_cb cb self w) a = objs w a).

End scheduler.

Local Close Scope Z_scope.

(** ** Predicates used in the statements *)

(** [only_flags o o']: going from [o] to [o'] changed nothing but
    [invalidated] flags. *)
Definition only_flags (o o' : store) : Prop :=
  ∀ a, o' a = with_invalidated (invalidated (o' a)) (o a).

(** Some layer above [self] in the stack has a rectangle that contains
    the rectangle of [self]. *)
Definition covered_above (o : store) (stack : list addr) (self : addr) : Prop :=
  ∃ i j up, i < j ∧ stack !! i = Some self ∧ stack !! j = Some up ∧
            contains (dimensions (o up)) (dimensions (o self)) = true.

(** The three cases in which [invalidate_ui] returns early. *)
Definition invalidate_ui_skips (self : addr) (w : world) : Prop :=
  invalidated (objs w self) = true ∨
  self ∉ ui_stack w ∨
  covered_above (objs w) (ui_stack w) self.

(** ** Concrete stacks *)

Definition rect (x0 y0 x1 y1 : Z) : rectangle :=
  Rectangle (Point x0 y0) (Point x1 y1).

Definition blank : ui_adaptor :=
  UiAdaptor (Rectangle point_zero point_zero) false false false None None.

Definition layer (r : rectangle) (inv : bool) : ui_adaptor :=
  UiAdaptor r false inv false None None.

(** The object at address [n] is the [n]-th record of the list. *)
Definition store_of (us : list ui_adaptor) : store :=
  λ a, default blank (us !! a).

Definition world_of (us : list ui_adaptor) : world :=
  World (store_of us) (seq 0 (length us)) false [].

(** Two layers that overlap without containment, the lower one invalidated. *)
Definition two_overlapping : world :=
  world_of [layer (rect 0 0 10 10) true; layer (rect 5 5 15 15) false].

(** The same two layers under a third one that covers the upper of the
    two: the state in which [invalidate_ui] on the bottom layer of a clean
    stack starts the pass. *)
Definition two_overlapping_covered : world :=
  world_of [layer (rect 0 0 10 10) true; layer (rect 5 5 15 15) false;
            layer (rect 5 5 20 20) false].

(** A small layer under a larger one, both invalidated. *)
Definition nested_pair : world :=
  world_of [layer (rect 2 2 4 4) true; layer (rect 0 0 10 10) true].

(** Three nested layers, all invalidated. *)
Definition nested_triple : world :=
  world_of [layer (rect 2 2 4 4) true; layer (rect 1 1 8 8) true;
            layer (rect 0 0 10 10) true].

(** A clean layer under a blocking layer placed elsewhere on the screen. *)
Definition blocked_stack : world :=
  world_of [layer (rect 0 0 10 10) false;
            UiAdaptor (rect 20 20 30 30) true false false None None].

(** An invalidated layer under a blocking layer that covers it. *)
Definition blocked_dirty : world :=
  world_of [layer (rect 2 2 4 4) true;
            UiAdaptor (rect 0 0 10 10) true true false None None].

(** A small clean layer under a large clean one. *)
Definition small_under_large : world :=
  world_of [layer (rect 0 0 2 2) false; layer (rect 0 0 10 10) false].

(** Callbacks that only draw: the world of the scheduler is untouched. *)
Definition drawing_only : cb_id → addr → world → world := λ _ _ w, w.

(** Two invalidated layers side by side, the first without a redraw
    callback, the second with one. *)
Definition one_callback : world :=
  world_of [layer (rect 0 0 5 5) true;
            UiAdaptor (rect 5 0 10 5) false true false (Some 0) None].

(** Two layers marked for resizing, the first without a resize callback,
    the second with one. *)
Definition resize_pending : world :=
  world_of [UiAdaptor (rect 0 0 5 5) false false true None None;
            UiAdaptor (rect 5 0 10 5) false false true None (Some 0)].

(** One invalidated layer without a redraw callback. *)
Definition no_callback : world := world_of [layer (rect 0 0 5 5) true].

(** * Properties *)

(** ** Geometry *)

Lemma contains_spec lhs rhs :
  contains lhs rhs = true ↔
  (x (p_min lhs) ≤ x (p_min rhs) ∧ x (p_max rhs) ≤ x (p_max lhs) ∧
   y (p_min lhs) ≤ y (p_min rhs) ∧ y (p_max rhs) ≤ y (p_max lhs))%Z.
Proof.
  unfold contains. rewrite !andb_true_iff, !Z.geb_le, !Z.leb_le. tauto.
Qed.

Lemma overlap_spec lhs rhs :
  overlap lhs rhs = true ↔
  (x (p_min lhs) < x (p_max rhs) ∧ y (p_min lhs) < y (p_max rhs) ∧
   x (p_min rhs) < x (p_max lhs) ∧ y (p_min rhs) < y (p_max lhs))%Z.
Proof.
  unfold overlap. rewrite !andb_true_iff, !Z.ltb_lt. tauto.
Qed.

Lemma overlap_sym lhs rhs : overlap lhs rhs = overlap rhs lhs.
Proof.
  apply eq_true_iff_eq. rewrite !overlap_spec. tauto.
Qed.

(** A layer that contains a rectangle overlaps everything the rectangle
    overlaps. *)
Lemma contains_overlap outer inner other :
  contains outer inner = true → overlap inner other = true →
  overlap outer other = true.
Proof.
  rewrite contains_spec, !overlap_spec. lia.
Qed.

(** ** Field updates *)

Lemma set_inv_lookup a b o x :
  set_inv a b o x = if decide (a = x) then with_invalidated b (o a) else o x.
Proof. reflexivity. Qed.

Lemma with_invalidated_eta u : with_invalidated (invalidated u) u = u.
Proof. by destruct u. Qed.

Lemma only_flags_refl o : only_flags o o.
Proof. intros a. by rewrite with_invalidated_eta. Qed.

Lemma only_flags_trans o1 o2 o3 :
  only_flags o1 o2 → only_flags o2 o3 → only_flags o1 o3.
Proof. intros H12 H23 a. rewrite (H23 a), (H12 a). reflexivity. Qed.

Lemma only_flags_set_inv a b o : only_flags o (set_inv a b o).
Proof.
  intros c. rewrite set_inv_lookup. case_decide; subst; simpl.
  - reflexivity.
  - by rewrite with_invalidated_eta.
Qed.

Lemma only_flags_dimensions o o' a :
  only_flags o o' → dimensions (o' a) = dimensions (o a).
Proof. intros H. by rewrite (H a). Qed.

Lemma only_flags_disabling o o' a :
  only_flags o o' → disabling_uis_below (o' a) = disabling_uis_below (o a).
Proof. intros H. by rewrite (H a). Qed.

Create HintDb flags.
Local Hint Resolve only_flags_refl only_flags_set_inv : flags.

(** ** One pair of the consistency pass *)

Ltac pair_cases :=
  unfold pair_step; rewrite ?set_inv_lookup;
  repeat (case_match || case_decide); subst; simpl in *;
  rewrite ?set_inv_lookup in *;
  repeat (case_decide; simpl in * ); subst;
  try congruence; try done.

Lemma pair_step_only_flags u o l : only_flags o (pair_step u o l).
Proof.
  unfold pair_step. repeat case_match;
    eauto using only_flags_trans with flags.
Qed.

Lemma pair_step_dimensions u o l a :
  dimensions (pair_step u o l a) = dimensions (o a).
Proof. apply only_flags_dimensions, pair_step_only_flags. Qed.

Lemma pair_step_other u o l a : a ≠ u → a ≠ l → pair_step u o l a = o a.
Proof. intros ??. pair_cases. Qed.

Lemma pair_step_keeps u o l a :
  invalidated (o a) = true →
  (a = l → contains (dimensions (o u)) (dimensions (o a)) = false) →
  invalidated (pair_step u o l a) = true.
Proof.
  intros Ha Hc. unfold pair_step.
  destruct (negb (invalidated (o u)) && invalidated (o l) &&
            overlap (dimensions (o u)) (dimensions (o l))) eqn:E1; simpl.
  - rewrite !set_inv_lookup.
    destruct (decide (a = l)) as [->|Hal].
    + rewrite decide_True by done.
      destruct (decide (u = l)) as [->|Hul]; simpl.
      * rewrite Ha in E1. done.
      * rewrite Hc by done. rewrite andb_false_r.
        rewrite set_inv_lookup. by case_decide.
    + case_match; rewrite ?set_inv_lookup; repeat case_decide; subst; simpl; try done.
  - destruct (decide (a = l)) as [->|Hal].
    + rewrite Hc by done. by rewrite andb_false_r.
    + case_match; rewrite ?set_inv_lookup; repeat case_decide; subst; simpl; try done.
Qed.

Lemma pair_step_never_set u o l a :
  invalidated (o a) = false → a ≠ u →
  invalidated (pair_step u o l a) = false.
Proof. intros ??. pair_cases. Qed.

Lemma pair_step_sets_upper u o l :
  invalidated (o l) = true →
  overlap (dimensions (o u)) (dimensions (o l)) = true →
  invalidated (pair_step u o l u) = true ∨
  contains (dimensions (o u)) (dimensions (o l)) = true.
Proof.
  intros Hl Hov. unfold pair_step. rewrite Hl, Hov. simpl.
  destruct (invalidated (o u)) eqn:Hu; simpl.
  - rewrite Hu, Hl. simpl.
    destruct (contains _ _); [by right|by left].
  - rewrite !set_inv_lookup. rewrite decide_True by done. simpl.
    destruct (decide (u = l)) as [->|Hul]; [congruence|].
    rewrite Hl. simpl.
    destruct (contains _ _); [by right|].
    left. rewrite set_inv_lookup. by rewrite decide_True.
Qed.

Lemma pair_step_clears_lower u o l :
  invalidated (o u) = true →
  contains (dimensions (o u)) (dimensions (o l)) = true →
  invalidated (pair_step u o l l) = false.
Proof.
  intros Hu Hc. unfold pair_step. rewrite Hu. simpl.
  rewrite Hu. simpl. rewrite Hc.
  destruct (invalidated (o l)) eqn:Hl; simpl; [|done].
  rewrite set_inv_lookup. by rewrite decide_True.
Qed.

(** ** The two loops of the consistency pass *)

Lemma inner_loop_snoc u ls l o :
  inner_loop u (ls ++ [l]) o = pair_step u (inner_loop u ls o) l.
Proof. unfold inner_loop. by rewrite foldl_app. Qed.

Lemma inner_loop_app u l1 l2 o :
  inner_loop u (l1 ++ l2) o = inner_loop u l2 (inner_loop u l1 o).
Proof. unfold inner_loop. by rewrite foldl_app. Qed.

Lemma inner_loop_only_flags u ls o : only_flags o (inner_loop u ls o).
Proof.
  revert o. induction ls as [|l ls IH]; intros o; simpl.
  - apply only_flags_refl.
  - eapply only_flags_trans; [apply pair_step_only_flags|apply IH].
Qed.

Lemma inner_loop_dimensions u ls o a :
  dimensions (inner_loop u ls o a) = dimensions (o a).
Proof. apply only_flags_dimensions, inner_loop_only_flags. Qed.

Lemma outer_loop_only_flags seen rest o : only_flags o (outer_loop seen rest o).
Proof.
  revert seen o. induction rest as [|u rest IH]; intros seen o; simpl.
  - apply only_flags_refl.
  - eapply only_flags_trans; [apply inner_loop_only_flags|apply IH].
Qed.

Lemma outer_loop_app seen r1 r2 o :
  outer_loop seen (r1 ++ r2) o = outer_loop (seen ++ r1) r2 (outer_loop seen r1 o).
Proof.
  revert seen o. induction r1 as [|u r1 IH]; intros seen o; simpl.
  - by rewrite app_nil_r.
  - rewrite IH. by rewrite <- app_assoc.
Qed.

(** Only the objects the loops visit are written. *)
Lemma inner_loop_other u ls o a :
  a ≠ u → a ∉ ls → inner_loop u ls o a = o a.
Proof.
  revert o. induction ls as [|l ls IH]; intros o Hu Hls; simpl; [done|].
  apply not_elem_of_cons in Hls as [??].
  rewrite IH by done. by apply pair_step_other.
Qed.

Lemma outer_loop_other seen rest o a :
  a ∉ seen → a ∉ rest → outer_loop seen rest o a = o a.
Proof.
  revert seen o. induction rest as [|u rest IH]; intros seen o Hs Hr; simpl; [done|].
  apply not_elem_of_cons in Hr as [??].
  rewrite IH; [by apply inner_loop_other| |done].
  intros [?| ->%list_elem_of_singleton]%elem_of_app; done.
Qed.

(** A flag is set only on the UI that is [upper] at that moment. *)
Lemma inner_loop_never_set u ls o a :
  invalidated (o a) = false → a ≠ u →
  invalidated (inner_loop u ls o a) = false.
Proof.
  revert o. induction ls as [|l ls IH]; intros o Ha Hu; simpl; [done|].
  apply IH; [|done]. by apply pair_step_never_set.
Qed.

Lemma outer_loop_never_set seen rest o a :
  invalidated (o a) = false → a ∉ rest →
  invalidated (outer_loop seen rest o a) = false.
Proof.
  revert seen o. induction rest as [|u rest IH]; intros seen o Ha Hr; simpl; [done|].
  apply not_elem_of_cons in Hr as [??].
  apply IH; [|done]. by apply inner_loop_never_set.
Qed.

(** A flag is cleared only on a UI that is [lower] at that moment and whose
    rectangle the current [upper] contains. *)
Lemma inner_loop_keeps u ls o a :
  invalidated (o a) = true →
  (a ∈ ls → contains (dimensions (o u)) (dimensions (o a)) = false) →
  invalidated (inner_loop u ls o a) = true.
Proof.
  revert o. induction ls as [|l ls IH]; intros o Ha Hc; simpl; [done|].
  apply IH.
  - apply pair_step_keeps; [done|]. intros ->. apply Hc. left.
  - intros Hin.
    rewrite !pair_step_dimensions. apply Hc. by right.
Qed.

Lemma outer_loop_keeps seen rest o a :
  invalidated (o a) = true →
  (a ∈ seen → ∀ u, u ∈ rest →
     contains (dimensions (o u)) (dimensions (o a)) = false) →
  (∀ r1 r2 u, rest = r1 ++ a :: r2 → u ∈ r2 →
     contains (dimensions (o u)) (dimensions (o a)) = false) →
  invalidated (outer_loop seen rest o a) = true.
Proof.
  revert seen o. induction rest as [|u rest IH]; intros seen o Ha Hs Hr; simpl; [done|].
  apply IH.
  - apply inner_loop_keeps; [done|]. intros Hin. apply Hs; [done|left].
  - intros Hin v Hv. rewrite !inner_loop_dimensions.
    apply elem_of_app in Hin as [Hin|Hin].
    + apply Hs; [done|by right].
    + apply list_elem_of_singleton in Hin as ->. by apply (Hr [] rest).
  - intros r1 r2 v -> Hv. rewrite !inner_loop_dimensions.
    by apply (Hr (u :: r1) r2).
Qed.

(** ** The pass on a duplicate-free range *)

Lemma NoDup_split_unique (l1 l2 r1 r2 : list addr) a :
  NoDup (l1 ++ a :: l2) → l1 ++ a :: l2 = r1 ++ a :: r2 → l1 = r1 ∧ l2 = r2.
Proof.
  revert r1. induction l1 as [|b l1 IH]; intros r1 Hnd Heq; simpl in *.
  - destruct r1 as [|c r1]; simplify_eq/=; [done|].
    apply NoDup_cons in Hnd as [Hin _]. destruct Hin.
    apply elem_of_app. right. left.
  - apply NoDup_cons in Hnd as [Hin Hnd].
    destruct r1 as [|c r1]; simplify_eq/=.
    + destruct Hin. apply elem_of_app. right. left.
    + destruct (IH r1 Hnd) as [-> ->]; done.
Qed.

Section range.
Variables (l1 l2 l3 : list addr) (lo up : addr).
Variable o : store.
Let rest := l1 ++ lo :: l2 ++ up :: l3.
Hypothesis Hnd : NoDup rest.

Local Lemma range_facts :
  lo ≠ up ∧ (up ∉ l1) ∧ (up ∉ l2) ∧ (up ∉ l3) ∧ (lo ∉ l3) ∧
  NoDup (l1 ++ lo :: l2) ∧ (up ∉ l1 ++ lo :: l2).
Proof using Hnd.
  unfold rest in Hnd.
  assert (Hnd' : NoDup ((l1 ++ lo :: l2) ++ up :: l3)).
  { by rewrite <- app_assoc. }
  apply NoDup_app in Hnd' as (HA & Hdisj & HB).
  apply NoDup_cons in HB as [Hup3 _].
  assert (Hup : up ∉ l1 ++ lo :: l2).
  { intros Hin. apply (Hdisj _ Hin). left. }
  repeat split; try done.
  - intros ->. apply Hup. apply elem_of_app. right. left.
  - intros Hin. apply Hup. apply elem_of_app. by left.
  - intros Hin. apply Hup. apply elem_of_app. right. by right.
  - intros Hin. apply (Hdisj lo); [|by right].
    apply elem_of_app. right. left.
Qed.

Local Lemma range_split :
  outer_loop [] rest o =
  outer_loop ((l1 ++ lo :: l2) ++ [up]) l3
    (inner_loop up l2
       (pair_step up (inner_loop up l1 (outer_loop [] (l1 ++ lo :: l2) o)) lo)).
Proof.
  unfold rest.
  replace (l1 ++ lo :: l2 ++ up :: l3) with ((l1 ++ lo :: l2) ++ up :: l3)
    by (by rewrite <- app_assoc).
  rewrite outer_loop_app. simpl.
  by rewrite (inner_loop_app up l1 (lo :: l2)).
Qed.

(** Rule 2 of the pass, seen from the end of the pass. *)
Lemma range_occlusion_lower :
  invalidated (o up) = true →
  contains (dimensions (o up)) (dimensions (o lo)) = true →
  invalidated (outer_loop [] rest o lo) = false.
Proof using Hnd.
  intros Hup Hc.
  destruct range_facts as (Hne & Hu1 & Hu2 & Hu3 & Hl3 & HndA & HuA).
  rewrite range_split.
  set (o1 := outer_loop [] (l1 ++ lo :: l2) o).
  set (o2 := inner_loop up l1 o1).
  apply outer_loop_never_set; [|done].
  apply inner_loop_never_set; [|done].
  apply pair_step_clears_lower.
  - apply inner_loop_keeps; [|done].
    apply outer_loop_keeps; [done|by intros ?%elem_of_nil|].
    intros r1 r2 u Heq. destruct HuA. rewrite Heq.
    apply elem_of_app. right. left.
  - unfold o2. rewrite !inner_loop_dimensions. unfold o1.
    by rewrite !(only_flags_dimensions o _ _ (outer_loop_only_flags _ _ _)).
Qed.

Lemma range_keeps_upper :
  invalidated (o up) = true →
  (∀ u, u ∈ l3 → contains (dimensions (o u)) (dimensions (o up)) = false) →
  invalidated (outer_loop [] rest o up) = true.
Proof using Hnd.
  intros Hup H3.
  apply outer_loop_keeps; [done|by intros ?%elem_of_nil|].
  intros r1 r2 u Heq Hu. apply H3.
  unfold rest in *.
  replace (l1 ++ lo :: l2 ++ up :: l3) with ((l1 ++ lo :: l2) ++ up :: l3) in *
    by (by rewrite <- app_assoc).
  destruct (NoDup_split_unique _ _ _ _ _ Hnd Heq) as [_ ->]. done.
Qed.

Lemma range_keeps_lower :
  invalidated (o lo) = true →
  (∀ u, u ∈ l2 ++ up :: l3 →
     contains (dimensions (o u)) (dimensions (o lo)) = false) →
  invalidated (outer_loop [] rest o lo) = true.
Proof using Hnd.
  intros Hlo H23.
  apply outer_loop_keeps; [done|by intros ?%elem_of_nil|].
  intros r1 r2 u Heq Hu. apply H23.
  destruct (NoDup_split_unique _ _ _ _ _ Hnd Heq) as [_ ->]. done.
Qed.

(** Rule 1 of the pass, seen from the end of the pass. *)
Lemma range_cascade_upper :
  invalidated (o lo) = true →
  overlap (dimensions (o up)) (dimensions (o lo)) = true →
  contains (dimensions (o up)) (dimensions (o lo)) = false →
  (∀ u, u ∈ l2 → contains (dimensions (o u)) (dimensions (o lo)) = false) →
  (∀ u, u ∈ l3 → contains (dimensions (o u)) (dimensions (o up)) = false) →
  invalidated (outer_loop [] rest o up) = true.
Proof using Hnd.
  intros Hlo Hov Hc H2 H3.
  destruct range_facts as (Hne & Hu1 & Hu2 & Hu3 & Hl3 & HndA & HuA).
  rewrite range_split.
  set (o1 := outer_loop [] (l1 ++ lo :: l2) o).
  set (o2 := inner_loop up l1 o1).
  set (o3 := pair_step up o2 lo).
  assert (Hd1 : ∀ a, dimensions (o1 a) = dimensions (o a)).
  { intros a. apply only_flags_dimensions, outer_loop_only_flags. }
  assert (Hd2 : ∀ a, dimensions (o2 a) = dimensions (o a)).
  { intros a. unfold o2. by rewrite inner_loop_dimensions. }
  assert (Hd3 : ∀ a, dimensions (o3 a) = dimensions (o a)).
  { intros a. unfold o3. by rewrite pair_step_dimensions. }
  assert (Hlo1 : invalidated (o1 lo) = true).
  { apply outer_loop_keeps; [done|by intros ?%elem_of_nil|].
    intros r1 r2 u Heq Hu. apply H2.
    destruct (NoDup_split_unique _ _ _ _ _ HndA Heq) as [_ ->]. done. }
  assert (Hlo2 : invalidated (o2 lo) = true).
  { apply inner_loop_keeps; [done|]. intros _. by rewrite !Hd1. }
  assert (Hup3 : invalidated (o3 up) = true).
  { destruct (pair_step_sets_upper up o2 lo) as [?|Hc']; [done| |done|].
    - by rewrite !Hd2.
    - rewrite !Hd2 in Hc'. congruence. }
  apply outer_loop_keeps.
  - apply inner_loop_keeps; [done|]. by intros ?.
  - intros _ u Hu. rewrite !inner_loop_dimensions, !Hd3. by apply H3.
  - intros r1 r2 u Heq. destruct Hu3. rewrite Heq.
    apply elem_of_app. right. left.
Qed.

End range.

(** ** The enabled range *)

Lemma rscan_ext o o' l :
  (∀ a, disabling_uis_below (o' a) = disabling_uis_below (o a)) →
  rscan o' l = rscan o l.
Proof. intros H. induction l as [|a l IH]; simpl; [done|]. by rewrite H, IH. Qed.

Lemma first_index_only_flags o o' stack :
  only_flags o o' → first_index o' stack = first_index o stack.
Proof.
  intros H. unfold first_index. rewrite (rscan_ext o o'); [done|].
  intros a. by apply only_flags_disabling.
Qed.

Lemma enabled_only_flags o o' stack :
  only_flags o o' → enabled o' stack = enabled o stack.
Proof. intros H. unfold enabled. by rewrite (first_index_only_flags o o'). Qed.

Lemma first_index_snoc o stack a :
  first_index o (stack ++ [a]) =
  if disabling_uis_below (o a) then length stack else first_index o stack.
Proof.
  unfold first_index. rewrite reverse_snoc, length_app. simpl.
  destruct (disabling_uis_below (o a)); [lia|].
  destruct (rscan o (reverse stack)); simpl; lia.
Qed.

(** The range starts at the topmost UI with [disabling_uis_below]: no
    such UI sits above [first_index]. *)
Lemma first_index_ge_blocker o stack k b :
  stack !! k = Some b → disabling_uis_below (o b) = true →
  k ≤ first_index o stack.
Proof.
  revert k b. induction stack as [|a stack IH] using rev_ind; intros k b Hk Hb.
  - done.
  - rewrite first_index_snoc.
    apply lookup_app_Some in Hk as [Hk|[Hlen Hk]].
    + destruct (disabling_uis_below (o a)).
      * apply lookup_lt_Some in Hk. lia.
      * by eapply IH.
    + destruct (k - length stack) as [|n] eqn:E; simplify_eq/=.
      rewrite Hb. lia.
Qed.

Lemma first_index_blocker_or_zero o stack :
  first_index o stack = 0 ∨
  ∃ b, stack !! first_index o stack = Some b ∧ disabling_uis_below (o b) = true.
Proof.
  induction stack as [|a stack IH] using rev_ind; [by left|].
  rewrite first_index_snoc.
  destruct (disabling_uis_below (o a)) eqn:Ha.
  - right. exists a. split; [|done].
    rewrite lookup_app_r by lia. by rewrite Nat.sub_diag.
  - destruct IH as [?|(b & Hb & ?)]; [by left|].
    right. exists b. split; [|done]. by apply lookup_app_l_Some.
Qed.

Lemma elem_of_drop_lookup (l : list addr) n u :
  u ∈ drop n l → ∃ m, n ≤ m ∧ l !! m = Some u.
Proof.
  intros [m Hm]%list_elem_of_lookup. rewrite lookup_drop in Hm.
  exists (n + m). split; [lia|done].
Qed.

Lemma drop_split_two (l : list addr) k i j a b :
  k ≤ i → i < j → l !! i = Some a → l !! j = Some b →
  ∃ l1 l2, drop k l = l1 ++ a :: l2 ++ b :: drop (S j) l ∧
           l2 ++ b :: drop (S j) l = drop (S i) l.
Proof.
  intros Hki Hij Ha Hb.
  exists (take (i - k) (drop k l)), (take (j - S i) (drop (S i) l)).
  assert (H2 : take (j - S i) (drop (S i) l) ++ b :: drop (S j) l = drop (S i) l).
  { assert (Hb' : drop (S i) l !! (j - S i) = Some b).
    { rewrite lookup_drop. rewrite <- Hb. f_equal. lia. }
    apply take_drop_middle in Hb'. rewrite drop_drop in Hb'.
    by replace (S i + S (j - S i)) with (S j) in Hb' by lia. }
  split; [|done]. rewrite H2.
  assert (Ha' : drop k l !! (i - k) = Some a).
  { rewrite lookup_drop. rewrite <- Ha. f_equal. lia. }
  apply take_drop_middle in Ha'. rewrite drop_drop in Ha'.
  by replace (k + S (i - k)) with (S i) in Ha' by lia.
Qed.

Lemma NoDup_drop (l : list addr) n : NoDup l → NoDup (drop n l).
Proof.
  intros H. rewrite <- (take_drop n l) in H.
  by apply NoDup_app in H as (_ & _ & ?).
Qed.

Lemma below_not_in_drop (l : list addr) n i a :
  NoDup l → i < n → l !! i = Some a → a ∉ drop n l.
Proof.
  intros Hnd Hi Ha [m [Hm Hl]]%elem_of_drop_lookup.
  assert (i = m) by (by eapply NoDup_lookup). lia.
Qed.

(** ** The consistency pass: cascade and occlusion *)

Lemma consistency_only_flags stack o : only_flags o (consistency stack o).
Proof. apply outer_loop_only_flags. Qed.

(** C1, as amended.  For a duplicate-free stack and two layers [lo] below
    [up] in the enabled range: if [up] is not invalidated, [lo] is
    invalidated, their rectangles overlap and neither contains the other,
    and moreover no layer above [lo] contains the rectangle of [lo] and no
    layer above [up] contains the rectangle of [up], then after the pass
    both [up] and [lo] are invalidated. *)
Theorem consistency_cascade (w : world) (i j : nat) (lo up : addr) :
  let o := objs w in
  let w' := invalidation_consistency_and_optimization w in
  NoDup (ui_stack w) →
  first_index o (ui_stack w) ≤ i → i < j →
  ui_stack w !! i = Some lo → ui_stack w !! j = Some up →
  invalidated (o up) = false →
  invalidated (o lo) = true →
  overlap (dimensions (o up)) (dimensions (o lo)) = true →
  contains (dimensions (o up)) (dimensions (o lo)) = false →
  contains (dimensions (o lo)) (dimensions (o up)) = false →
  (∀ m u, i < m → ui_stack w !! m = Some u →
     contains (dimensions (o u)) (dimensions (o lo)) = false) →
  (∀ m u, j < m → ui_stack w !! m = Some u →
     contains (dimensions (o u)) (dimensions (o up)) = false) →
  invalidated (objs w' up) = true ∧ invalidated (objs w' lo) = true.
Proof.
  intros o w' Hnd Hki Hij Hlo Hup Hiu Hil Hov Hc _ Hclo Hcup.
  destruct (drop_split_two _ _ _ _ _ _ Hki Hij Hlo Hup) as (l1 & l2 & Hsplit & Htail).
  assert (Hnd' : NoDup (l1 ++ lo :: l2 ++ up :: drop (S j) (ui_stack w))).
  { rewrite <- Hsplit. by apply NoDup_drop. }
  assert (Hlo_above : ∀ u, u ∈ l2 ++ up :: drop (S j) (ui_stack w) →
            contains (dimensions (o u)) (dimensions (o lo)) = false).
  { intros u Hu. rewrite Htail in Hu.
    apply elem_of_drop_lookup in Hu as (m & Hm & Hu). by apply (Hclo m). }
  assert (Hup_above : ∀ u, u ∈ drop (S j) (ui_stack w) →
            contains (dimensions (o u)) (dimensions (o up)) = false).
  { intros u (m & Hm & Hu)%elem_of_drop_lookup. by apply (Hcup m). }
  unfold w', invalidation_consistency_and_optimization, consistency, enabled.
  simpl. fold o. rewrite Hsplit. split.
  - apply range_cascade_upper; try done.
    intros u Hu. apply Hlo_above. apply elem_of_app. by left.
  - by apply range_keeps_lower.
Qed.

Lemma consistency_cascade_witness :
  invalidated (objs (invalidation_consistency_and_optimization two_overlapping) 1) = true ∧
  invalidated (objs (invalidation_consistency_and_optimization two_overlapping) 0) = true.
Proof.
  apply (consistency_cascade two_overlapping 0 1 0 1); try reflexivity.
  - exact (NoDup_seq 0 2).
  - lia.
  - intros [|[|m]] u Hm Hu; simplify_eq/=; [lia|reflexivity].
  - intros [|[|m]] u Hm Hu; simplify_eq/=; lia.
Defined.

(** C1 as stated fails: with a third layer on top that covers the upper
    layer of the pair, the pair satisfies every premise of the cascade rule,
    and the pass ends with the flag of the upper layer of the pair clear. *)
Lemma consistency_cascade_counterexample :
  let w := two_overlapping_covered in
  let o := objs w in
  let w' := invalidation_consistency_and_optimization w in
  NoDup (ui_stack w) ∧
  (first_index o (ui_stack w) ≤ 0 ∧ 0 < 1 ∧
   ui_stack w !! 0 = Some 0 ∧ ui_stack w !! 1 = Some 1 ∧
   invalidated (o 1) = false ∧ invalidated (o 0) = true ∧
   overlap (dimensions (o 1)) (dimensions (o 0)) = true ∧
   contains (dimensions (o 1)) (dimensions (o 0)) = false ∧
   contains (dimensions (o 0)) (dimensions (o 1)) = false) ∧
  invalidated (objs w' 1) = false.
Proof.
  split; [exact (NoDup_seq 0 3)|].
  simpl. repeat split; (reflexivity || lia).
Qed.

(** C2, as amended.  For a duplicate-free stack and two layers [lo] below
    [up] in the enabled range: if both are invalidated and the rectangle of
    [up] contains the rectangle of [lo], then the pass clears the flag of
    [lo]; it leaves the flag of [up] set when no layer above [up] contains
    the rectangle of [up]. *)
Theorem consistency_occlusion (w : world) (i j : nat) (lo up : addr) :
  let o := objs w in
  let w' := invalidation_consistency_and_optimization w in
  NoDup (ui_stack w) →
  first_index o (ui_stack w) ≤ i → i < j →
  ui_stack w !! i = Some lo → ui_stack w !! j = Some up →
  invalidated (o lo) = true →
  invalidated (o up) = true →
  contains (dimensions (o up)) (dimensions (o lo)) = true →
  invalidated (objs w' lo) = false ∧
  ((∀ m u, j < m → ui_stack w !! m = Some u →
      contains (dimensions (o u)) (dimensions (o up)) = false) →
   invalidated (objs w' up) = true).
Proof.
  intros o w' Hnd Hki Hij Hlo Hup _ Hiu Hc.
  destruct (drop_split_two _ _ _ _ _ _ Hki Hij Hlo Hup) as (l1 & l2 & Hsplit & Htail).
  assert (Hnd' : NoDup (l1 ++ lo :: l2 ++ up :: drop (S j) (ui_stack w))).
  { rewrite <- Hsplit. by apply NoDup_drop. }
  unfold w', invalidation_consistency_and_optimization, consistency, enabled.
  simpl. fold o. rewrite Hsplit. split.
  - by apply range_occlusion_lower.
  - intros Hcup. apply range_keeps_upper; try done.
    intros u (m & Hm & Hu)%elem_of_drop_lookup. by apply (Hcup m).
Qed.

Lemma consistency_occlusion_witness :
  invalidated (objs (invalidation_consistency_and_optimization nested_pair) 0) = false ∧
  invalidated (objs (invalidation_consistency_and_optimization nested_pair) 1) = true.
Proof.
  destruct (consistency_occlusion nested_pair 0 1 0 1) as [H0 H1];
    try reflexivity.
  - exact (NoDup_seq 0 2).
  - lia.
  - split; [exact H0|]. apply H1.
    intros [|[|m]] u Hm Hu; simplify_eq/=; lia.
Defined.

(** C2 as stated fails: in three nested layers, all invalidated, the pair
    of the two lower ones satisfies the premises of the occlusion rule, and
    the pass clears the flag of the upper one of the pair as well. *)
Lemma consistency_occlusion_counterexample :
  let w := nested_triple in
  let o := objs w in
  let w' := invalidation_consistency_and_optimization w in
  NoDup (ui_stack w) ∧
  (first_index o (ui_stack w) ≤ 0 ∧ 0 < 1 ∧
   ui_stack w !! 0 = Some 0 ∧ ui_stack w !! 1 = Some 1 ∧
   invalidated (o 0) = true ∧ invalidated (o 1) = true ∧
   contains (dimensions (o 1)) (dimensions (o 0)) = true) ∧
  invalidated (objs w' 1) = false.
Proof.
  split; [exact (NoDup_seq 0 3)|].
  simpl. repeat split; (reflexivity || lia).
Qed.

(** ** Region invalidation *)

Lemma mark_step_only_flags rect o a : only_flags o (mark_step rect o a).
Proof. unfold mark_step. case_match; auto with flags. Qed.

Lemma mark_region_only_flags rect stack o : only_flags o (mark_region rect stack o).
Proof.
  revert o. induction stack as [|s stack IH]; intros o; simpl.
  - apply only_flags_refl.
  - eapply only_flags_trans; [apply mark_step_only_flags|apply IH].
Qed.

Lemma mark_step_invalidated rect o s a :
  invalidated (mark_step rect o s a) =
  invalidated (o a) || (bool_decide (a = s) && overlap (dimensions (o a)) rect).
Proof.
  unfold mark_step.
  destruct (decide (a = s)) as [->|Hne].
  - rewrite bool_decide_eq_true_2 by done. simpl.
    destruct (invalidated (o s)) eqn:Hi; simpl; [done|].
    destruct (overlap _ _); [|done].
    rewrite set_inv_lookup. by rewrite decide_True.
  - rewrite bool_decide_eq_false_2 by done. rewrite orb_false_r.
    case_match; [|done]. rewrite set_inv_lookup. by rewrite decide_False.
Qed.

(** What the marking loop of [invalidate] leaves behind, layer by layer. *)
Lemma mark_region_invalidated rect stack o a :
  invalidated (mark_region rect stack o a) = true ↔
  invalidated (o a) = true ∨ (a ∈ stack ∧ overlap (dimensions (o a)) rect = true).
Proof.
  revert o. induction stack as [|s stack IH]; intros o; simpl.
  - split; [by left|]. intros [?|[?%elem_of_nil ?]]; done.
  - fold (mark_region rect stack (mark_step rect o s)).
    rewrite IH, mark_step_invalidated.
    rewrite (only_flags_dimensions o _ a (mark_step_only_flags rect o s)).
    rewrite orb_true_iff, andb_true_iff, bool_decide_eq_true, elem_of_cons.
    tauto.
Qed.

Lemma consistency_outside stack o a :
  a ∉ enabled o stack → consistency stack o a = o a.
Proof. intros H. apply outer_loop_other; [by intros ?%elem_of_nil|done]. Qed.

(** C3, as amended.  On a degenerate rectangle [invalidate] changes nothing
    at all when [reenable_uis_below] is false, and does exactly what the
    consistency pass does when it is true: then only [invalidated] flags
    change, and only on layers of the enabled range. *)
Theorem invalidate_degenerate (rect : rectangle) (w : world) :
  degenerate rect = true →
  invalidate rect false w = w ∧
  invalidate rect true w = invalidation_consistency_and_optimization w ∧
  only_flags (objs w) (objs (invalidate rect true w)) ∧
  (∀ a, a ∉ enabled (objs w) (ui_stack w) →
        objs (invalidate rect true w) a = objs w a).
Proof.
  intros H. unfold invalidate. rewrite H. repeat split.
  - apply consistency_only_flags.
  - intros a Ha. simpl. by apply consistency_outside.
Qed.

Lemma invalidate_degenerate_witness :
  invalidate (rect 3 3 3 3) false two_overlapping = two_overlapping ∧
  invalidate (rect 3 3 3 3) true two_overlapping =
    invalidation_consistency_and_optimization two_overlapping.
Proof.
  destruct (invalidate_degenerate (rect 3 3 3 3) two_overlapping)
    as (Hfalse & Htrue & _); [reflexivity|].
  split; [exact Hfalse|exact Htrue].
Defined.

(** C3 as stated fails for [reenable_uis_below = true]: the pass that
    then runs invalidates the upper of two overlapping layers.  (A stack is
    left like this when a never-positioned blocking layer above the two is
    destroyed after the lower one was invalidated underneath it.) *)
Lemma invalidate_degenerate_counterexample :
  let w := two_overlapping in
  let r := rect 3 3 3 3 in
  degenerate r = true ∧
  invalidated (objs w 1) = false ∧
  invalidated (objs (invalidate r true w) 1) = true.
Proof. repeat split. Qed.

(** C5.  On a non-degenerate rectangle [invalidate] is the consistency pass
    run on the stack as the marking loop leaves it, and after the marking
    loop a layer is invalidated exactly when it was before or it is on the
    stack, anywhere, and its rectangle overlaps [rect]; nothing but flags is
    touched.  A layer below the enabled range that overlaps [rect] is
    still invalidated when [invalidate] returns. *)
Theorem invalidate_region (rect : rectangle) (reenable_uis_below : bool) (w : world) :
  degenerate rect = false →
  let marked := mark_region rect (ui_stack w) (objs w) in
  invalidate rect reenable_uis_below w =
    invalidation_consistency_and_optimization (with_objs marked w) ∧
  only_flags (objs w) marked ∧
  (∀ a, invalidated (marked a) = true ↔
        invalidated (objs w a) = true ∨
        (a ∈ ui_stack w ∧ overlap (dimensions (objs w a)) rect = true)) ∧
  (∀ i a, NoDup (ui_stack w) → i < first_index (objs w) (ui_stack w) →
          ui_stack w !! i = Some a →
          overlap (dimensions (objs w a)) rect = true →
          invalidated (objs (invalidate rect reenable_uis_below w) a) = true).
Proof.
  intros Hdeg marked.
  assert (Heq : invalidate rect reenable_uis_below w =
                invalidation_consistency_and_optimization (with_objs marked w)).
  { unfold invalidate. by rewrite Hdeg. }
  assert (Hfl : only_flags (objs w) marked) by apply mark_region_only_flags.
  repeat split; try done.
  - by apply mark_region_invalidated.
  - by apply mark_region_invalidated.
  - intros i a Hnd Hi Ha Hov. rewrite Heq. simpl.
    rewrite consistency_outside.
    + apply mark_region_invalidated. right. split; [|done].
      by eapply list_elem_of_lookup_2.
    + rewrite (enabled_only_flags (objs w)) by done.
      by eapply below_not_in_drop.
Qed.

Lemma invalidate_region_witness :
  invalidated (objs (invalidate (rect 0 0 5 5) false blocked_stack) 0) = true.
Proof.
  destruct (invalidate_region (rect 0 0 5 5) false blocked_stack)
    as (_ & _ & _ & Hbelow); [reflexivity|].
  apply (Hbelow 0 0); [exact (NoDup_seq 0 2)|vm_compute; lia|reflexivity|reflexivity].
Defined.

(** ** invalidate_ui *)

Lemma uis_above_None self stack : uis_above self stack = None ↔ self ∉ stack.
Proof.
  induction stack as [|a stack IH]; simpl.
  - split; [intros _ ?%elem_of_nil; done|done].
  - case_decide; subst.
    + split; [done|]. intros H. destruct H. left.
    + rewrite IH, not_elem_of_cons.
      split; [intros ?; split; [congruence|done]|by intros [_ ?]].
Qed.

Lemma uis_above_Some self stack ups :
  uis_above self stack = Some ups →
  ∃ p, stack = p ++ self :: ups ∧ self ∉ p.
Proof.
  revert ups. induction stack as [|a stack IH]; intros ups H; simpl in *; [done|].
  case_decide; simplify_eq.
  - exists []. split; [done|]. by intros ?%elem_of_nil.
  - destruct (IH _ H) as (p & -> & Hp). exists (a :: p). split; [done|].
    by apply not_elem_of_cons.
Qed.

Lemma occluded_by_true o self ups :
  occluded_by o self ups = true ↔
  ∃ u, u ∈ ups ∧ contains (dimensions (o u)) (dimensions (o self)) = true.
Proof.
  unfold occluded_by. induction ups as [|a ups IH]; simpl.
  - split; [done|]. by intros (u & ?%elem_of_nil & _).
  - rewrite orb_true_iff, IH. split.
    + intros [H|(u & Hu & H)]; [exists a; split; [left|done]|].
      exists u. split; [by right|done].
    + intros (u & [->|Hu]%elem_of_cons & H); [by left|]. right. by exists u.
Qed.

Lemma covered_above_occluded o stack self ups :
  uis_above self stack = Some ups →
  covered_above o stack self ↔ occluded_by o self ups = true.
Proof.
  intros (p & -> & Hp)%uis_above_Some. rewrite occluded_by_true. split.
  - intros (i & j & up & Hij & Hi & Hj & Hc). exists up. split; [|done].
    assert (length p ≤ i).
    { destruct (decide (i < length p)) as [Hlt|]; [|lia].
      rewrite lookup_app_l in Hi by done.
      destruct Hp. by eapply list_elem_of_lookup_2. }
    rewrite lookup_app_r in Hj by lia.
    destruct (j - length p) as [|n] eqn:E; [lia|]. simpl in Hj.
    by eapply list_elem_of_lookup_2.
  - intros (u & [n Hn]%list_elem_of_lookup & Hc).
    exists (length p), (length p + S n), u. repeat split; [lia| | |done].
    + by rewrite list_lookup_middle.
    + rewrite lookup_app_r by lia.
      replace (length p + S n - length p) with (S n) by lia. done.
Qed.

Lemma invalidate_ui_skip self w :
  invalidate_ui_skips self w → invalidate_ui self w = w.
Proof.
  unfold invalidate_ui. intros [Hi|[Hn|Hc]].
  - by rewrite Hi.
  - apply uis_above_None in Hn. rewrite Hn. by case_match.
  - case_match; [done|].
    destruct (uis_above self (ui_stack w)) as [ups|] eqn:Hups; [|done].
    apply (covered_above_occluded _ _ _ _ Hups) in Hc. by rewrite Hc.
Qed.

(** A layer that is invalidated and not covered from above is still
    invalidated after the pass. *)
Lemma consistency_keeps_uncovered stack o self :
  invalidated (o self) = true →
  ¬ covered_above o stack self →
  invalidated (consistency stack o self) = true.
Proof.
  intros Hi Hnc. unfold consistency, enabled.
  apply outer_loop_keeps; [done|by intros ?%elem_of_nil|].
  intros r1 r2 u Hsplit [n Hn]%list_elem_of_lookup.
  destruct (contains _ _) eqn:Hc; [|done]. destruct Hnc.
  set (k := first_index o stack) in *.
  exists (k + length r1), (k + (length r1 + S n)), u.
  repeat split; [lia| | |done].
  - rewrite <- lookup_drop, Hsplit. by rewrite list_lookup_middle.
  - rewrite <- lookup_drop, Hsplit. rewrite lookup_app_r by lia.
    replace (length r1 + S n - length r1) with (S n) by lia. done.
Qed.

Lemma covered_above_only_flags o o' stack self :
  only_flags o o' → covered_above o' stack self ↔ covered_above o stack self.
Proof.
  intros H. unfold covered_above.
  by setoid_rewrite (only_flags_dimensions o o' _ H).
Qed.

Lemma invalidate_ui_marks self w :
  ¬ invalidate_ui_skips self w →
  invalidate_ui self w =
    invalidation_consistency_and_optimization (set_invalidated self true w) ∧
  invalidated (objs w self) = false ∧
  invalidated (objs (invalidate_ui self w) self) = true.
Proof.
  intros Hns. unfold invalidate_ui_skips in Hns.
  assert (Hi : invalidated (objs w self) = false).
  { destruct (invalidated (objs w self)); [|done]. destruct Hns. by left. }
  assert (Hc : ¬ covered_above (objs w) (ui_stack w) self) by tauto.
  unfold invalidate_ui. rewrite Hi.
  destruct (uis_above self (ui_stack w)) as [ups|] eqn:Hups.
  - destruct (occluded_by (objs w) self ups) eqn:Hocc.
    + destruct Hc. by apply (covered_above_occluded _ _ _ _ Hups).
    + repeat split. simpl. apply consistency_keeps_uncovered.
      * rewrite set_inv_lookup. by rewrite decide_True.
      * by rewrite (covered_above_only_flags (objs w)) by apply only_flags_set_inv.
  - apply uis_above_None in Hups. tauto.
Qed.

Lemma invalidate_ui_skips_dec self w :
  invalidate_ui_skips self w ∨ ¬ invalidate_ui_skips self w.
Proof.
  unfold invalidate_ui_skips.
  destruct (invalidated (objs w self)); [by left; left|].
  destruct (uis_above self (ui_stack w)) as [ups|] eqn:Hups.
  - destruct (occluded_by (objs w) self ups) eqn:Hocc.
    + left. right. right. by apply (covered_above_occluded _ _ _ _ Hups).
    + right. intros [?|[Hn|Hc]]; [done| |].
      * apply uis_above_None in Hn. congruence.
      * apply (covered_above_occluded _ _ _ _ Hups) in Hc. congruence.
  - left. right. left. by apply uis_above_None.
Qed.

(** C6.  [invalidate_ui] leaves every flag as it was exactly when [self]
    is already invalidated, or is not on the stack, or some layer above it
    has a rectangle that contains its rectangle, and in these cases it
    changes nothing at all; in every other case it marks [self] and runs the
    consistency pass. *)
Theorem invalidate_ui_cases (self : addr) (w : world) :
  ((∀ a, invalidated (objs (invalidate_ui self w) a) = invalidated (objs w a)) ↔
   invalidate_ui_skips self w) ∧
  (invalidate_ui_skips self w → invalidate_ui self w = w) ∧
  (¬ invalidate_ui_skips self w →
   invalidate_ui self w =
     invalidation_consistency_and_optimization (set_invalidated self true w)).
Proof.
  repeat split.
  - intros Hsame. destruct (invalidate_ui_skips_dec self w) as [?|Hns]; [done|].
    destruct (invalidate_ui_marks self w Hns) as (_ & Hbefore & Hafter).
    specialize (Hsame self). congruence.
  - intros Hs a. by rewrite invalidate_ui_skip.
  - apply invalidate_ui_skip.
  - intros Hns. by apply invalidate_ui_marks.
Qed.

(** C7.  A second [invalidate_ui] on the same layer changes nothing. *)
Theorem invalidate_ui_idempotent (self : addr) (w : world) :
  invalidate_ui self (invalidate_ui self w) = invalidate_ui self w.
Proof.
  destruct (invalidate_ui_skips_dec self w) as [Hs|Hns].
  - by rewrite !(invalidate_ui_skip self w Hs).
  - destruct (invalidate_ui_marks self w Hns) as (_ & _ & Hafter).
    apply invalidate_ui_skip. by left.
Qed.

Lemma invalidate_ui_cases_witness :
  invalidate_ui 7 two_overlapping_covered = two_overlapping_covered ∧
  invalidated (objs (invalidate_ui 1 blocked_stack) 1) = true.
Proof.
  destruct (invalidate_ui_cases 7 two_overlapping_covered) as (_ & Hskip & _).
  destruct (invalidate_ui_cases 1 blocked_stack) as (_ & _ & Hmark).
  split.
  - apply Hskip. right. left. simpl. intros Hin.
    repeat (apply elem_of_cons in Hin as [Hin|Hin]; [done|]).
    by apply elem_of_nil in Hin.
  - rewrite Hmark; [reflexivity|].
    intros [Hi|[Hn|(i & j & up & Hij & Hi & Hj & Hc)]].
    + done.
    + apply Hn. right. left.
    + destruct i as [|[|i]], j as [|[|j]]; simplify_eq/=; lia.
Defined.

(** ** Layers below the enabled range *)

Lemma mark_region_keeps rect stack o a :
  invalidated (o a) = true → invalidated (mark_region rect stack o a) = true.
Proof. intros H. apply mark_region_invalidated. by left. Qed.

Lemma consistency_keeps_disabled (w : world) (a : addr) :
  a ∉ enabled (objs w) (ui_stack w) →
  invalidated (objs w a) = true →
  invalidated (objs (invalidation_consistency_and_optimization w) a) = true.
Proof. intros Hout Hi. simpl. by rewrite consistency_outside. Qed.

(** C9.  A layer [l] of a duplicate-free stack that lies below a layer
    with [disabling_uis_below], and is invalidated, is still invalidated
    after the consistency pass, after [invalidate] with any arguments, and
    after [invalidate_ui] on any layer. *)
Theorem disabled_never_cleared (w : world) (i k : nat) (l b : addr) :
  NoDup (ui_stack w) →
  ui_stack w !! i = Some l →
  ui_stack w !! k = Some b →
  disabling_uis_below (objs w b) = true →
  i < k →
  invalidated (objs w l) = true →
  invalidated (objs (invalidation_consistency_and_optimization w) l) = true ∧
  (∀ rect reenable_uis_below,
     invalidated (objs (invalidate rect reenable_uis_below w) l) = true) ∧
  (∀ self, invalidated (objs (invalidate_ui self w) l) = true).
Proof.
  intros Hnd Hl Hb Hdis Hik Hi.
  assert (Hlt : i < first_index (objs w) (ui_stack w)).
  { pose proof (first_index_ge_blocker _ _ _ _ Hb Hdis). lia. }
  assert (Hout : l ∉ enabled (objs w) (ui_stack w)).
  { by eapply below_not_in_drop. }
  assert (Hpass : ∀ o', only_flags (objs w) o' → invalidated (o' l) = true →
            invalidated (objs (invalidation_consistency_and_optimization
                                 (with_objs o' w)) l) = true).
  { intros o' Hfl Hi'. apply consistency_keeps_disabled; [|done].
    simpl. by rewrite (enabled_only_flags (objs w)). }
  split; [by apply consistency_keeps_disabled|]. split.
  - intros rect reenable. unfold invalidate.
    destruct (degenerate rect).
    + destruct reenable; [by apply consistency_keeps_disabled|done].
    + apply Hpass; [apply mark_region_only_flags|by apply mark_region_keeps].
  - intros self. unfold invalidate_ui.
    destruct (invalidated (objs w self)); [done|].
    destruct (uis_above self (ui_stack w)); [|done].
    destruct (occluded_by (objs w) self _); [done|].
    apply (Hpass (set_inv self true (objs w))); [apply only_flags_set_inv|].
    rewrite set_inv_lookup. case_decide; subst; done.
Qed.

Lemma disabled_never_cleared_witness :
  invalidated (objs (invalidation_consistency_and_optimization blocked_dirty) 0) = true ∧
  (∀ rect reenable_uis_below,
     invalidated (objs (invalidate rect reenable_uis_below blocked_dirty) 0) = true) ∧
  (∀ self, invalidated (objs (invalidate_ui self blocked_dirty) 0) = true).
Proof.
  apply (disabled_never_cleared blocked_dirty 0 1 0 1); try reflexivity.
  - exact (NoDup_seq 0 2).
  - lia.
Defined.

(** ** position *)

Lemma moved_lookup self r o a :
  set_inv self true (<[self := with_dimensions r (o self)]> o) a =
  if decide (self = a)
  then UiAdaptor r (disabling_uis_below (o self)) true (deferred_resize (o self))
                 (redraw_cb (o self)) (screen_resized_cb (o self))
  else o a.
Proof.
  rewrite set_inv_lookup. case_decide; subst.
  - by rewrite fn_lookup_insert.
  - by rewrite fn_lookup_insert_ne.
Qed.

Lemma invalidate_only_flags rect reenable w :
  only_flags (objs w) (objs (invalidate rect reenable w)).
Proof.
  unfold invalidate. repeat case_match; simpl.
  - apply consistency_only_flags.
  - apply only_flags_refl.
  - eapply only_flags_trans; [apply mark_region_only_flags|apply consistency_only_flags].
Qed.

(** C8, as amended.  [position] stores the new rectangle (in a build
    without [TILES]: from [topleft] to [topleft + size]) and sets the flag
    of the layer, and only then calls [invalidate] with the rectangle the
    layer had before and [false].  When it returns the layer has the new
    rectangle; its flag is still set if the old rectangle was degenerate, or
    if the stack is duplicate-free and no layer above it contains the new
    rectangle. *)
Theorem position_effect (b : build) (topleft size : point) (self : addr) (w : world) :
  let old_dimensions := dimensions (objs w self) in
  let new := new_dimensions b topleft size in
  let w2 := set_invalidated self true (set_dimensions self new w) in
  let w' := position b topleft size self w in
  new_dimensions Curses topleft size = Rectangle topleft (point_add topleft size) ∧
  w' = invalidate old_dimensions false w2 ∧
  dimensions (objs w2 self) = new ∧
  invalidated (objs w2 self) = true ∧
  dimensions (objs w' self) = new ∧
  (degenerate old_dimensions = true ∨
   (NoDup (ui_stack w) ∧
    ∀ i j up, i < j → ui_stack w !! i = Some self → ui_stack w !! j = Some up →
              contains (dimensions (objs w up)) new = false) →
   invalidated (objs w' self) = true).
Proof.
  intros old new w2 w'.
  assert (Hself : objs w2 self =
            UiAdaptor new (disabling_uis_below (objs w self)) true
                      (deferred_resize (objs w self)) (redraw_cb (objs w self))
                      (screen_resized_cb (objs w self))).
  { unfold w2. simpl. rewrite moved_lookup. by rewrite decide_True. }
  assert (Hother : ∀ a, a ≠ self → objs w2 a = objs w a).
  { intros a Ha. unfold w2. simpl. rewrite moved_lookup. by rewrite decide_False. }
  repeat split.
  - by rewrite Hself.
  - by rewrite Hself.
  - change w' with (invalidate old false w2).
    rewrite (only_flags_dimensions (objs w2)) by apply invalidate_only_flags.
    by rewrite Hself.
  - change w' with (invalidate old false w2). unfold invalidate.
    intros [Hdeg|[Hnd Hfree]].
    + rewrite Hdeg. by rewrite Hself.
    + destruct (degenerate old); [by rewrite Hself|]. simpl.
      apply consistency_keeps_uncovered.
      * apply mark_region_keeps. by rewrite moved_lookup, decide_True.
      * rewrite (covered_above_only_flags (objs w2)) by apply mark_region_only_flags.
        intros (i & j & up & Hij & Hi & Hj & Hc).
        assert (up ≠ self).
        { intros ->. assert (i = j) by (by eapply NoDup_lookup). lia. }
        rewrite Hself, Hother in Hc by done. simpl in Hc.
        rewrite (Hfree i j up) in Hc; done.
Qed.

Lemma position_effect_witness :
  invalidated (objs (position Curses (Point 20 20) (Point 5 5) 0 small_under_large) 0) = true.
Proof.
  destruct (position_effect Curses (Point 20 20) (Point 5 5) 0 small_under_large)
    as (_ & _ & _ & _ & _ & Hflag).
  apply Hflag. right. split; [exact (NoDup_seq 0 2)|].
  intros [|[|i]] [|[|j]] up Hij Hi Hj; simplify_eq/=; (lia || reflexivity).
Defined.

(** C8 as stated fails: moving the small layer inside the large one
    leaves it with the new rectangle and a clear flag, because the large
    layer is invalidated by the old rectangle and then occludes it. *)
Lemma position_effect_counterexample :
  let w' := position Curses (Point 1 1) (Point 1 1) 0 small_under_large in
  dimensions (objs w' 0) = rect 1 1 2 2 ∧
  invalidated (objs w' 1) = true ∧
  invalidated (objs w' 0) = false.
Proof. repeat split. Qed.

(** ** Redraw *)

Section scheduler_facts.
Variable run_redraw_cb : cb_id → addr → world → world.
Variable run_resize_cb : cb_id → addr → world → world.

Lemma redraw_step_clears w a : invalidated (objs (redraw_step run_redraw_cb w a) a) = false.
Proof.
  unfold redraw_step. destruct (invalidated (objs w a)) eqn:Hi; [|done].
  simpl. rewrite set_inv_lookup. by rewrite decide_True.
Qed.

Lemma redraw_step_never_sets w b a :
  redraw_cbs_do_not_invalidate run_redraw_cb →
  invalidated (objs (redraw_step run_redraw_cb w b) a) = true → invalidated (objs w a) = true.
Proof.
  intros Hcb. unfold redraw_step.
  destruct (invalidated (objs w b)) eqn:Hi; [|done].
  simpl. rewrite set_inv_lookup. case_decide; subst; simpl; [done|].
  destruct (redraw_cb (objs w b)); [apply Hcb|done].
Qed.

Lemma redraw_loop_never_sets range w a :
  redraw_cbs_do_not_invalidate run_redraw_cb →
  invalidated (objs (foldl (redraw_step run_redraw_cb) w range) a) = true →
  invalidated (objs w a) = true.
Proof.
  intros Hcb. revert w. induction range as [|b range IH]; intros w; simpl; [done|].
  intros H%IH. by eapply redraw_step_never_sets.
Qed.

Lemma redraw_loop_clears range w a :
  redraw_cbs_do_not_invalidate run_redraw_cb →
  a ∈ range → invalidated (objs (foldl (redraw_step run_redraw_cb) w range) a) = false.
Proof.
  intros Hcb (r1 & r2 & ->)%list_elem_of_split.
  rewrite foldl_app. simpl.
  destruct (invalidated (objs (foldl _ _ r2) a)) eqn:E; [|done].
  apply redraw_loop_never_sets in E; [|done].
  by rewrite redraw_step_clears in E.
Qed.

(** C4, as amended.  With test mode off and a non-empty stack: when some
    layer of the enabled range is invalidated and has a redraw callback at
    the start of the redraw phase, and no redraw callback invalidates a
    layer, every layer of the enabled range ends the call with its flag
    clear, with or without a callback of its own; when no layer of the
    range is invalidated with a callback, the redraw phase changes
    nothing. *)
Theorem redraw_invalidated_clears (w : world) :
  let range := enabled (objs w) (ui_stack w) in
  let w1 := resize_phase run_resize_cb range w in
  test_mode w = false →
  ui_stack w ≠ [] →
  (needs_redraw range w1 = true →
   redraw_cbs_do_not_invalidate run_redraw_cb →
   ∀ a, a ∈ range → invalidated (objs (redraw_invalidated run_redraw_cb run_resize_cb w) a) = false) ∧
  (needs_redraw range w1 = false →
   objs (redraw_invalidated run_redraw_cb run_resize_cb w) = objs w1).
Proof.
  intros range w1 Htest Hne.
  assert (Heq : redraw_invalidated run_redraw_cb run_resize_cb w =
                log_event (EmscriptenSleep 1) (redraw_phase run_redraw_cb range w1)).
  { unfold redraw_invalidated. rewrite Htest.
    by rewrite bool_decide_eq_false_2. }
  rewrite Heq. unfold redraw_phase. split.
  - intros -> Hcb a Ha. simpl. by apply redraw_loop_clears.
  - by intros ->.
Qed.

(** C10.  In test mode, on a non-empty stack, [redraw] sets the flag of
    the topmost layer and does nothing else, while [redraw_invalidated run_redraw_cb run_resize_cb]
    does nothing at all. *)
Theorem redraw_test_mode (w : world) (top : addr) :
  test_mode w = true →
  last (ui_stack w) = Some top →
  redraw run_redraw_cb run_resize_cb w = set_invalidated top true w ∧
  invalidated (objs (redraw run_redraw_cb run_resize_cb w) top) = true ∧
  objs (redraw run_redraw_cb run_resize_cb w) top = with_invalidated true (objs w top) ∧
  (∀ a, a ≠ top → objs (redraw run_redraw_cb run_resize_cb w) a = objs w a) ∧
  ui_stack (redraw run_redraw_cb run_resize_cb w) = ui_stack w ∧
  test_mode (redraw run_redraw_cb run_resize_cb w) = test_mode w ∧
  events (redraw run_redraw_cb run_resize_cb w) = events w ∧
  redraw_invalidated run_redraw_cb run_resize_cb w = w.
Proof.
  intros Htest Htop.
  assert (Heq : redraw run_redraw_cb run_resize_cb w = set_invalidated top true w).
  { unfold redraw, redraw_invalidated. rewrite Htop. simpl. by rewrite Htest. }
  rewrite Heq. simpl. rewrite set_inv_lookup, decide_True by done.
  repeat split.
  - intros a Ha. rewrite set_inv_lookup. by rewrite decide_False.
  - unfold redraw_invalidated. by rewrite Htest.
Qed.

End scheduler_facts.

Lemma redraw_invalidated_clears_witness :
  invalidated (objs (redraw_invalidated drawing_only drawing_only one_callback) 0) = false.
Proof.
  destruct (redraw_invalidated_clears drawing_only drawing_only one_callback)
    as [Hclears _]; [reflexivity|done|].
  apply Hclears; [reflexivity|by intros cb self w a|left].
Defined.

(** C4 as stated fails: with no redraw callback on any invalidated layer
    the clearing loop is not entered, and the flag stays set. *)
Lemma redraw_invalidated_clears_counterexample :
  let w := no_callback in
  test_mode w = false ∧ ui_stack w = [0] ∧
  enabled (objs w) (ui_stack w) = [0] ∧
  redraw_cb (objs w 0) = None ∧
  invalidated (objs (resize_phase drawing_only (enabled (objs w) (ui_stack w)) w) 0) = true ∧
  invalidated (objs (redraw_invalidated drawing_only drawing_only w) 0) = true.
Proof. repeat split. Qed.

Lemma redraw_test_mode_witness :
  let w := World (objs two_overlapping) (ui_stack two_overlapping) true [] in
  invalidated (objs w 1) = false ∧
  invalidated (objs (redraw drawing_only drawing_only w) 1) = true ∧
  redraw_invalidated drawing_only drawing_only w = w.
Proof.
  destruct (redraw_test_mode drawing_only drawing_only
              (World (objs two_overlapping) (ui_stack two_overlapping) true []) 1)
    as (_ & Hflag & _ & _ & _ & _ & _ & Hinert); [reflexivity|reflexivity|].
  split; [reflexivity|]. split; [exact Hflag|exact Hinert].
Defined.

(** ** Registration keeps the stack duplicate-free *)

Lemma construct_NoDup self b w :
  self ∉ ui_stack w → NoDup (ui_stack w) → NoDup (ui_stack (construct self b w)).
Proof.
  intros Hfresh Hnd. simpl. apply NoDup_app. repeat split; [done| |].
  - intros a Ha ->%list_elem_of_singleton. done.
  - apply NoDup_singleton.
Qed.

Lemma erase_last_sublist self stack stack' :
  erase_last self stack = Some stack' → stack' `sublist_of` stack.
Proof.
  revert stack'. induction stack as [|a stack IH]; intros stack' H; simpl in *; [done|].
  destruct (erase_last self stack) as [r|]; simplify_eq.
  - apply sublist_skip. by apply IH.
  - case_decide; simplify_eq. by apply sublist_cons.
Qed.

Lemma destruct_ui_NoDup self w :
  NoDup (ui_stack w) → NoDup (ui_stack (destruct_ui self w)).
Proof.
  intros Hnd. unfold destruct_ui.
  destruct (erase_last self (ui_stack w)) as [stack'|] eqn:E; [|done].
  assert (NoDup stack') by (eapply sublist_NoDup; [done|by eapply erase_last_sublist]).
  unfold invalidate. repeat case_match; done.
Qed.

(** * Further properties of the module *)

(** ** Rectangles *)

Lemma contains_overlap_nondegenerate upper lower :
  contains upper lower = true → degenerate lower = false →
  overlap upper lower = true.
Proof.
  rewrite contains_spec, overlap_spec. unfold degenerate.
  rewrite orb_false_iff. intros Hc [Hx Hy].
  assert (¬ (x (p_max lower) ≤ x (p_min lower))%Z) as Hx'.
  { intros H. apply Z.geb_le in H. congruence. }
  assert (¬ (y (p_max lower) ≤ y (p_min lower))%Z) as Hy'.
  { intros H. apply Z.geb_le in H. congruence. }
  lia.
Qed.

(** X1.  The remark in the consistency pass, that an obscured lower UI
    overlaps the UI that obscures it, holds for a lower rectangle that is
    not degenerate. *)
Theorem contains_implies_overlap (upper lower : rectangle) :
  contains upper lower = true → degenerate lower = false →
  overlap upper lower = true.
Proof.
  intros Hc Hdeg. apply overlap_spec. apply contains_spec in Hc.
  unfold degenerate in Hdeg. apply orb_false_iff in Hdeg as [Hx Hy].
  assert (x (p_min lower) < x (p_max lower))%Z.
  { destruct (Z.geb_spec (x (p_min lower)) (x (p_max lower))); [done|lia]. }
  assert (y (p_min lower) < y (p_max lower))%Z.
  { destruct (Z.geb_spec (y (p_min lower)) (y (p_max lower))); [done|lia]. }
  lia.
Qed.

Lemma contains_implies_overlap_witness :
  overlap (rect 0 0 10 10) (rect 2 2 4 4) = true.
Proof. apply (contains_implies_overlap (rect 0 0 10 10) (rect 2 2 4 4)); reflexivity. Defined.

Lemma contains_refl r : contains r r = true.
Proof. apply contains_spec. lia. Qed.

Lemma contains_trans_helper a b c :
  contains a b = true → contains b c = true → contains a c = true.
Proof. rewrite !contains_spec. lia. Qed.

(** X2.  Containment of rectangles is transitive, and a rectangle that
    contains another overlaps whatever the inner one overlaps. *)
Theorem contains_chain (a b c other : rectangle) :
  contains a b = true →
  (contains b c = true → contains a c = true) ∧
  (overlap b other = true → overlap a other = true).
Proof.
  intros Hab. split.
  - by apply contains_trans_helper.
  - by apply contains_overlap.
Qed.

Lemma contains_chain_witness :
  contains (rect 0 0 10 10) (rect 2 2 4 4) = true ∧
  overlap (rect 0 0 10 10) (rect 3 3 20 20) = true.
Proof.
  destruct (contains_chain (rect 0 0 10 10) (rect 1 1 8 8) (rect 2 2 4 4)
              (rect 3 3 20 20)) as [H1 H2]; [reflexivity|].
  split; [apply H1|apply H2]; reflexivity.
Defined.

(** ** The enabled range *)

Lemma first_index_le o stack : first_index o stack ≤ length stack.
Proof. unfold first_index. destruct (rscan _ _); lia. Qed.

Lemma first_index_lt o stack : stack ≠ [] → first_index o stack < length stack.
Proof.
  destruct stack as [|a stack] using rev_ind; [done|]. intros _.
  rewrite first_index_snoc, length_app. simpl.
  destruct (disabling_uis_below (o a)); [lia|].
  pose proof (first_index_le o stack). lia.
Qed.

Lemma rscan_agree o o' l :
  (∀ a, a ∈ l → disabling_uis_below (o' a) = disabling_uis_below (o a)) →
  rscan o' l = rscan o l.
Proof.
  induction l as [|a l IH]; intros H; simpl; [done|].
  rewrite H by left. rewrite IH; [done|]. intros b Hb. apply H. by right.
Qed.

Lemma first_index_agree o o' stack :
  (∀ a, a ∈ stack → disabling_uis_below (o' a) = disabling_uis_below (o a)) →
  first_index o' stack = first_index o stack.
Proof.
  intros H. unfold first_index. rewrite (rscan_agree o o'); [done|].
  intros a Ha. apply H. by apply elem_of_reverse.
Qed.

(** X3.  The range that the consistency pass and the scheduler work on
    starts at the topmost UI with [disabling_uis_below]: no such UI lies above
    its first index, the first index is 0 or holds such a UI, and on a
    non-empty stack it is a valid index. *)
Theorem first_index_topmost_blocker (o : store) (stack : list addr) :
  (∀ k b, stack !! k = Some b → disabling_uis_below (o b) = true →
          k ≤ first_index o stack) ∧
  (first_index o stack = 0 ∨
   ∃ b, stack !! first_index o stack = Some b ∧ disabling_uis_below (o b) = true) ∧
  (stack ≠ [] → first_index o stack < length stack).
Proof.
  repeat split.
  - apply first_index_ge_blocker.
  - apply first_index_blocker_or_zero.
  - apply first_index_lt.
Qed.

Lemma last_in_enabled o stack top :
  last stack = Some top → top ∈ enabled o stack.
Proof.
  intros Hlast. unfold enabled.
  destruct stack as [|a stack] using rev_ind; [done|].
  rewrite last_snoc in Hlast. simplify_eq.
  assert (Hlt : first_index o (stack ++ [top]) < length (stack ++ [top])).
  { apply first_index_lt. by destruct stack. }
  rewrite length_app in Hlt. simpl in Hlt.
  rewrite drop_app_le by lia.
  apply elem_of_app. right. left.
Qed.

(** ** Registration and removal *)

Lemma store_insert_eq (o : store) (a : addr) (u : ui_adaptor) :
  (<[a := u]> o) a = u.
Proof. apply (fn_lookup_insert (o : addr → ui_adaptor)). Qed.

Lemma store_insert_ne (o : store) (a b : addr) (u : ui_adaptor) :
  a ≠ b → (<[a := u]> o) b = o b.
Proof. apply (fn_lookup_insert_ne (o : addr → ui_adaptor)). Qed.

Lemma invalidate_ui_stack rect reenable w :
  ui_stack (invalidate rect reenable w) = ui_stack w.
Proof. unfold invalidate. by repeat case_match. Qed.

Lemma erase_last_None self stack : erase_last self stack = None ↔ self ∉ stack.
Proof.
  induction stack as [|a stack IH]; simpl.
  - split; [intros _ ?%elem_of_nil; done|done].
  - destruct (erase_last self stack) as [r|] eqn:E.
    + split; [done|]. intros Hn. apply not_elem_of_cons in Hn as [_ Hn].
      apply IH in Hn. done.
    + case_decide; subst.
      * split; [done|]. intros Hn. destruct Hn. left.
      * split; [|done]. intros _. apply not_elem_of_cons. split; [done|].
        by apply IH.
Qed.

Lemma erase_last_app self l1 l2 :
  self ∉ l2 → erase_last self (l1 ++ self :: l2) = Some (l1 ++ l2).
Proof.
  intros Hn. induction l1 as [|a l1 IH]; simpl.
  - apply erase_last_None in Hn. rewrite Hn. by rewrite decide_True.
  - by rewrite IH.
Qed.

(** X4.  Constructing a UI at an address that is not on the stack keeps
    the stack duplicate-free and puts the new UI on top, with its
    [invalidated] and [deferred_resize] flags clear and
    [disabling_uis_below] as requested; no other object changes. *)
Theorem construct_registers (self : addr) (b : bool) (w : world) :
  self ∉ ui_stack w → NoDup (ui_stack w) →
  let w' := construct self b w in
  NoDup (ui_stack w') ∧
  last (ui_stack w') = Some self ∧
  invalidated (objs w' self) = false ∧
  deferred_resize (objs w' self) = false ∧
  disabling_uis_below (objs w' self) = b ∧
  (∀ a, a ≠ self → objs w' a = objs w a).
Proof.
  intros Hfresh Hnd w'. split; [by apply construct_NoDup|].
  split; [apply last_snoc|].
  assert (Hself : objs w' self =
            UiAdaptor (dimensions (objs w self)) b false false
                      (redraw_cb (objs w self)) (screen_resized_cb (objs w self))).
  { apply (fn_lookup_insert (objs w)). }
  rewrite Hself. repeat split.
  intros a Ha. by apply (fn_lookup_insert_ne (objs w)).
Qed.

Lemma construct_registers_witness :
  last (ui_stack (construct 5 true two_overlapping)) = Some 5 ∧
  NoDup (ui_stack (construct 5 true two_overlapping)).
Proof.
  destruct (construct_registers 5 true two_overlapping) as (Hnd & Hlast & _).
  - simpl. intros Hin.
    repeat (apply elem_of_cons in Hin as [Hin|Hin]; [done|]).
    by apply elem_of_nil in Hin.
  - exact (NoDup_seq 0 2).
  - split; [exact Hlast|exact Hnd].
Defined.

(** X5.  After the construction of a UI at an address that is not on the
    stack, the enabled range is the new UI alone if it was constructed with
    [disable_uis_below], and the former enabled range followed by the new UI
    otherwise. *)
Theorem construct_enabled (self : addr) (b : bool) (w : world) :
  self ∉ ui_stack w →
  let w' := construct self b w in
  enabled (objs w') (ui_stack w') =
  if b then [self] else enabled (objs w) (ui_stack w) ++ [self].
Proof.
  intros Hfresh w'.
  assert (Hself : disabling_uis_below (objs w' self) = b).
  { unfold w', construct. cbn [objs]. by rewrite store_insert_eq. }
  assert (Hother : ∀ a, a ∈ ui_stack w →
            disabling_uis_below (objs w' a) = disabling_uis_below (objs w a)).
  { intros a Ha. unfold w', construct. cbn [objs].
    rewrite store_insert_ne; [done|]. by intros ->. }
  unfold enabled. change (ui_stack w') with (ui_stack w ++ [self]).
  rewrite first_index_snoc, Hself.
  destruct b.
  - by rewrite drop_app_length.
  - rewrite (first_index_agree (objs w)) by done.
    by rewrite drop_app_le by apply first_index_le.
Qed.

Lemma construct_enabled_witness :
  enabled (objs (construct 5 true two_overlapping))
          (ui_stack (construct 5 true two_overlapping)) = [5] ∧
  enabled (objs (construct 5 false blocked_stack))
          (ui_stack (construct 5 false blocked_stack)) = [1; 5].
Proof.
  assert (Hfresh : ∀ w, ui_stack w = [0; 1] → 5 ∉ ui_stack w).
  { intros w -> Hin.
    repeat (apply elem_of_cons in Hin as [Hin|Hin]; [done|]).
    by apply elem_of_nil in Hin. }
  split.
  - apply (construct_enabled 5 true two_overlapping). by apply Hfresh.
  - apply (construct_enabled 5 false blocked_stack). by apply Hfresh.
Defined.

(** X6.  Destroying a UI right after constructing it gives back the stack
    as it was, and on the way changes nothing but [invalidated] flags of the
    world the constructor left. *)
Theorem destruct_construct (self : addr) (b : bool) (w : world) :
  let w1 := construct self b w in
  ui_stack (destruct_ui self w1) = ui_stack w ∧
  only_flags (objs w1) (objs (destruct_ui self w1)) ∧
  test_mode (destruct_ui self w1) = test_mode w ∧
  events (destruct_ui self w1) = events w.
Proof.
  intros w1. unfold destruct_ui.
  assert (Herase : erase_last self (ui_stack w1) = Some (ui_stack w)).
  { unfold w1. simpl. rewrite (erase_last_app self (ui_stack w) []).
    - by rewrite app_nil_r.
    - by intros ?%elem_of_nil. }
  rewrite Herase. split; [by rewrite invalidate_ui_stack|].
  split.
  { apply (invalidate_only_flags _ _
             (World (objs w1) (ui_stack w) (test_mode w1) (events w1))). }
  unfold invalidate. by repeat case_match.
Qed.

(** X7.  Destroying a UI that is not on the stack changes nothing. *)
Theorem destruct_ui_absent (self : addr) (w : world) :
  self ∉ ui_stack w → destruct_ui self w = w.
Proof.
  intros Hn. unfold destruct_ui. apply erase_last_None in Hn. by rewrite Hn.
Qed.

Lemma destruct_ui_absent_witness :
  destruct_ui 7 two_overlapping = two_overlapping.
Proof.
  apply (destruct_ui_absent 7 two_overlapping). simpl. intros Hin.
  repeat (apply elem_of_cons in Hin as [Hin|Hin]; [done|]).
  by apply elem_of_nil in Hin.
Defined.

(** X8.  Destroying a UI of a duplicate-free stack removes that UI and no
    other: the stack stays duplicate-free, the UI is not on it any more,
    every other UI is on it exactly if it was before, in the same order, and
    nothing but [invalidated] flags changes in the objects. *)
Theorem destruct_ui_removes (self : addr) (w : world) :
  NoDup (ui_stack w) → self ∈ ui_stack w →
  let w' := destruct_ui self w in
  NoDup (ui_stack w') ∧
  (self ∉ ui_stack w') ∧
  (∀ a, a ≠ self → a ∈ ui_stack w' ↔ a ∈ ui_stack w) ∧
  (ui_stack w' `sublist_of` ui_stack w) ∧
  only_flags (objs w) (objs w').
Proof.
  intros Hnd (l1 & l2 & Hsplit)%list_elem_of_split w'.
  assert (Hnd' := Hnd). rewrite Hsplit in Hnd'.
  apply NoDup_app in Hnd' as (Hnd1 & Hdisj & Hnd2).
  apply NoDup_cons in Hnd2 as [Hself2 Hnd2].
  assert (Hstack : ui_stack w' = l1 ++ l2).
  { unfold w', destruct_ui. rewrite Hsplit, erase_last_app by done.
    by rewrite invalidate_ui_stack. }
  rewrite Hstack, Hsplit. repeat split.
  - apply NoDup_app. repeat split; [done| |done].
    intros a Ha Ha2. apply (Hdisj a Ha). by right.
  - intros [Hin|Hin]%elem_of_app; [|done]. apply (Hdisj self Hin). left.
  - intros [?|?]%elem_of_app; apply elem_of_app; [by left|right; by right].
  - intros [?|[?|?]%elem_of_cons]%elem_of_app; apply elem_of_app;
      [by left|done|by right].
  - apply sublist_app; [done|]. by apply sublist_cons.
  - unfold w', destruct_ui. rewrite Hsplit, erase_last_app by done.
    apply (invalidate_only_flags _ _ (World _ _ _ _)).
Qed.

Lemma destruct_ui_removes_witness :
  (ui_stack (destruct_ui 1 nested_triple) `sublist_of` ui_stack nested_triple) ∧
  (1 ∉ ui_stack (destruct_ui 1 nested_triple)).
Proof.
  destruct (destruct_ui_removes 1 nested_triple) as (_ & Hgone & _ & Hsub & _).
  - exact (NoDup_seq 0 3).
  - right. left.
  - split; [exact Hsub|exact Hgone].
Defined.

(** ** The consistency pass as a whole *)


(** X9.  The consistency pass writes [invalidated] flags only, and only
    on UIs of the enabled range; the stack, the test-mode flag, the logged
    calls and the enabled range itself are as before. *)
Theorem consistency_frame (w : world) :
  let w' := invalidation_consistency_and_optimization w in
  only_flags (objs w) (objs w') ∧
  (∀ a, a ∉ enabled (objs w) (ui_stack w) → objs w' a = objs w a) ∧
  ui_stack w' = ui_stack w ∧ test_mode w' = test_mode w ∧
  events w' = events w ∧
  enabled (objs w') (ui_stack w') = enabled (objs w) (ui_stack w).
Proof.
  repeat split.
  - apply consistency_only_flags.
  - intros a Ha. by apply consistency_outside.
  - apply enabled_only_flags, consistency_only_flags.
Qed.

Lemma pair_step_clean u o l : invalidated (o l) = false → pair_step u o l = o.
Proof.
  intros H. unfold pair_step. rewrite H, andb_false_r. simpl.
  by rewrite H, andb_false_r.
Qed.





(** A flag cleared by one pair: the upper UI of the pair is invalidated. *)
Lemma pair_step_cleared u o l a :
  invalidated (o a) = true → invalidated (pair_step u o l a) = false →
  a = l ∧ contains (dimensions (o u)) (dimensions (o a)) = true ∧
  (u ≠ l → invalidated (pair_step u o l u) = true).
Proof.
  intros Ha Hcl.
  destruct (decide (a = l)) as [->|Hne].
  - destruct (contains (dimensions (o u)) (dimensions (o l))) eqn:Hc.
    + repeat split. intros Hul. unfold pair_step in *. rewrite Ha in *.
      assert (Hlu : l ≠ u) by congruence.
      destruct (invalidated (o u)) eqn:Eu; simpl in *.
      * rewrite Eu, Ha, Hc in *. simpl in *.
        rewrite set_inv_lookup. by rewrite decide_False.
      * destruct (overlap (dimensions (o u)) (dimensions (o l))) eqn:Eo.
        -- rewrite !set_inv_lookup in *.
           rewrite decide_True in * by done. rewrite decide_False in * by done.
           simpl in *. rewrite Ha, Hc in *. simpl in *.
           rewrite !set_inv_lookup. rewrite decide_False by done.
           by rewrite decide_True.
        -- rewrite Eu in Hcl. simpl in Hcl. congruence.
    + rewrite pair_step_keeps in Hcl; done.
  - rewrite pair_step_keeps in Hcl; done.
Qed.

Lemma inner_loop_cleared u ls o a :
  u ∉ ls →
  invalidated (o a) = true → invalidated (inner_loop u ls o a) = false →
  a ∈ ls ∧ contains (dimensions (o u)) (dimensions (o a)) = true ∧
  invalidated (inner_loop u ls o u) = true.
Proof.
  induction ls as [|l ls IH] using rev_ind; intros Hu Ha Hcl.
  - simpl in Hcl. congruence.
  - apply not_elem_of_app in Hu as [Hu Hul].
    apply not_elem_of_cons in Hul as [Hul _].
    rewrite inner_loop_snoc in *.
    destruct (invalidated (inner_loop u ls o a)) eqn:E.
    + destruct (pair_step_cleared _ _ _ _ E Hcl) as (-> & Hc & Hinv).
      rewrite !inner_loop_dimensions in Hc.
      split; [apply elem_of_app; right; left|]. split; [done|by apply Hinv].
    + destruct (IH Hu Ha eq_refl) as (Hin & Hc & Hinv).
      split; [apply elem_of_app; by left|]. split; [done|].
      apply pair_step_keeps; [done|]. intros ->. done.
Qed.

(** A flag cleared by the pass: a UI later in the range, invalidated at the
    end of the pass, contains the rectangle. *)
Lemma outer_loop_cleared seen rest o a :
  NoDup (seen ++ rest) →
  invalidated (o a) = true → invalidated (outer_loop seen rest o a) = false →
  ∃ r1 t r2, rest = r1 ++ t :: r2 ∧ (a ∈ seen ∨ a ∈ r1) ∧
             invalidated (outer_loop seen rest o t) = true ∧
             contains (dimensions (o t)) (dimensions (o a)) = true.
Proof.
  revert seen o a. induction rest as [|u rest IH]; intros seen o a Hnd Ha Hcl.
  - simpl in Hcl. congruence.
  - simpl in *.
    assert (Hnd' : NoDup ((seen ++ [u]) ++ rest)) by (by rewrite <- app_assoc).
    assert (Hu : u ∉ seen).
    { apply NoDup_app in Hnd as (_ & Hdisj & _). intros Hin.
      apply (Hdisj u Hin). left. }
    destruct (invalidated (inner_loop u seen o a)) eqn:E.
    + destruct (IH _ _ _ Hnd' E Hcl) as (r1 & t & r2 & -> & Hpos & Ht & Hc).
      rewrite !inner_loop_dimensions in Hc.
      exists (u :: r1), t, r2. repeat split; try done.
      destruct Hpos as [[?| ->%list_elem_of_singleton]%elem_of_app|?];
        [by left|right; left|right; by right].
    + destruct (inner_loop_cleared _ _ _ _ Hu Ha E) as (Hin & Hc & Hinv).
      destruct (invalidated (outer_loop (seen ++ [u]) rest (inner_loop u seen o) u))
        eqn:Eu.
      * exists [], u, rest. repeat split; try done. by left.
      * destruct (IH _ _ _ Hnd' Hinv Eu) as (r1 & t & r2 & -> & _ & Ht & Hc').
        rewrite !inner_loop_dimensions in Hc'.
        exists (u :: r1), t, r2. repeat split; try done; [by left|].
        by eapply contains_trans_helper.
Qed.

Lemma enabled_position (w : world) (i : nat) (a : addr) (r1 r2 : list addr) (t : addr) :
  NoDup (ui_stack w) → ui_stack w !! i = Some a →
  enabled (objs w) (ui_stack w) = r1 ++ t :: r2 → a ∈ r1 →
  ∃ m, i < m ∧ ui_stack w !! m = Some t.
Proof.
  intros Hnd Ha Hsplit [n Hn]%list_elem_of_lookup.
  unfold enabled in Hsplit.
  set (k := first_index (objs w) (ui_stack w)) in *.
  exists (k + length r1). split.
  - assert (Ha' : ui_stack w !! (k + n) = Some a).
    { rewrite <- lookup_drop, Hsplit. by apply lookup_app_l_Some. }
    assert (i = k + n) by (by eapply NoDup_lookup).
    apply lookup_lt_Some in Hn. lia.
  - rewrite <- lookup_drop, Hsplit. by rewrite list_lookup_middle.
Qed.

Lemma consistency_cleared_covered (stack : list addr) (o : store) (i : nat) (a : addr) :
  NoDup stack → stack !! i = Some a →
  invalidated (o a) = true → invalidated (consistency stack o a) = false →
  ∃ m t, i < m ∧ stack !! m = Some t ∧
         invalidated (consistency stack o t) = true ∧
         contains (dimensions (o t)) (dimensions (o a)) = true.
Proof.
  intros Hnd Ha Hinv Hcl. unfold consistency in *.
  destruct (outer_loop_cleared [] _ _ _ (NoDup_drop _ _ Hnd) Hinv Hcl)
    as (r1 & t & r2 & Hsplit & [?%elem_of_nil|Hpos] & Ht & Hc); [done|].
  destruct (enabled_position (World o stack false []) i a r1 r2 t)
    as (m & Hm & Hmt); try done.
  exists m, t. repeat split; done.
Qed.

(** X11.  The pass clears the flag of a UI only when a UI above it, itself
    invalidated when the pass ends, has a rectangle that contains the
    rectangle of the cleared one. *)
Theorem consistency_clears_only_covered (w : world) (i : nat) (a : addr) :
  let w' := invalidation_consistency_and_optimization w in
  NoDup (ui_stack w) → ui_stack w !! i = Some a →
  invalidated (objs w a) = true → invalidated (objs w' a) = false →
  ∃ m t, i < m ∧ ui_stack w !! m = Some t ∧
         invalidated (objs w' t) = true ∧
         contains (dimensions (objs w t)) (dimensions (objs w a)) = true.
Proof.
  intros w' Hnd Ha Hinv Hcl. unfold w' in *. simpl in *. unfold consistency in *.
  destruct (outer_loop_cleared [] _ _ _ (NoDup_drop _ _ Hnd) Hinv Hcl)
    as (r1 & t & r2 & Hsplit & [?%elem_of_nil|Hpos] & Ht & Hc); [done|].
  destruct (enabled_position w i a r1 r2 t) as (m & Hm & Hmt); try done.
  exists m, t. repeat split; done.
Qed.

Lemma consistency_clears_only_covered_witness :
  ∃ m t, 0 < m ∧ ui_stack nested_pair !! m = Some t ∧
         invalidated (objs (invalidation_consistency_and_optimization nested_pair) t) = true ∧
         contains (dimensions (objs nested_pair t)) (dimensions (objs nested_pair 0)) = true.
Proof.
  apply (consistency_clears_only_covered nested_pair 0 0); try reflexivity.
  exact (NoDup_seq 0 2).
Defined.

Lemma pair_step_lower_survives u o l :
  u ≠ l →
  invalidated (pair_step u o l l) = true →
  overlap (dimensions (o u)) (dimensions (o l)) = true →
  invalidated (pair_step u o l u) = true.
Proof.
  intros Hul Hl Hov.
  assert (Hlu : l ≠ u) by congruence.
  assert (Ha : invalidated (o l) = true).
  { destruct (invalidated (o l)) eqn:E; [done|].
    rewrite pair_step_never_set in Hl; done. }
  unfold pair_step in *. rewrite Ha, Hov in *.
  destruct (invalidated (o u)) eqn:Eu; simpl in *.
  - rewrite Eu, Ha in *. simpl in *.
    destruct (contains _ _); [|done].
    rewrite set_inv_lookup in Hl. rewrite decide_True in Hl by done. done.
  - rewrite !set_inv_lookup in *.
    rewrite decide_True in * by done. rewrite decide_False in * by done.
    simpl in *. rewrite Ha in *. simpl in *.
    destruct (contains _ _).
    + rewrite set_inv_lookup in Hl. rewrite decide_True in Hl by done. done.
    + rewrite set_inv_lookup. by rewrite decide_True.
Qed.

Lemma pair_step_covered_clears u o l :
  u ≠ l →
  contains (dimensions (o u)) (dimensions (o l)) = true →
  overlap (dimensions (o u)) (dimensions (o l)) = true →
  invalidated (pair_step u o l l) = false.
Proof.
  intros Hul Hc Hov.
  assert (Hlu : l ≠ u) by congruence.
  destruct (invalidated (o l)) eqn:El; [|by rewrite pair_step_clean].
  unfold pair_step. rewrite El, Hov.
  destruct (invalidated (o u)) eqn:Eu; simpl.
  - rewrite Eu, El, Hc. simpl.
    rewrite set_inv_lookup. by rewrite decide_True.
  - rewrite !set_inv_lookup.
    rewrite decide_True by done. rewrite decide_False by done.
    simpl. rewrite El, Hc. simpl.
    rewrite set_inv_lookup. by rewrite decide_True.
Qed.

Section range_end.
Variables (l1 l2 l3 : list addr) (lo up : addr).
Variable o : store.
Let rest := l1 ++ lo :: l2 ++ up :: l3.
Hypothesis Hnd : NoDup rest.

Local Lemma range_lower_at_pair :
  invalidated (outer_loop [] rest o lo) = true →
  invalidated
    (pair_step up (inner_loop up l1 (outer_loop [] (l1 ++ lo :: l2) o)) lo lo) = true.
Proof using Hnd.
  intros Hend.
  destruct (range_facts l1 l2 l3 lo up Hnd) as (Hne & Hu1 & Hu2 & Hu3 & Hl3 & HndA & HuA).
  unfold rest in Hend. rewrite range_split in Hend.
  destruct (invalidated (pair_step _ _ lo lo)) eqn:E; [done|].
  rewrite outer_loop_never_set in Hend; [done| |done].
  by apply inner_loop_never_set.
Qed.

Lemma range_propagates :
  overlap (dimensions (o up)) (dimensions (o lo)) = true →
  invalidated (outer_loop [] rest o lo) = true →
  invalidated (outer_loop [] rest o up) = true ∨
  ∃ r1 t r2, l3 = r1 ++ t :: r2 ∧
             invalidated (outer_loop [] rest o t) = true ∧
             contains (dimensions (o t)) (dimensions (o up)) = true.
Proof using Hnd.
  intros Hov Hend.
  pose proof (range_lower_at_pair Hend) as Hlo3.
  destruct (range_facts l1 l2 l3 lo up Hnd) as (Hne & Hu1 & Hu2 & Hu3 & Hl3 & HndA & HuA).
  unfold rest in *. rewrite range_split in *.
  set (o2 := inner_loop up l1 (outer_loop [] (l1 ++ lo :: l2) o)) in *.
  set (o3 := pair_step up o2 lo) in *.
  set (o4 := inner_loop up l2 o3).
  assert (Hd4 : ∀ a, dimensions (o4 a) = dimensions (o a)).
  { intros a. unfold o4, o3, o2.
    rewrite inner_loop_dimensions, pair_step_dimensions, inner_loop_dimensions.
    apply only_flags_dimensions, outer_loop_only_flags. }
  assert (Hd2 : ∀ a, dimensions (o2 a) = dimensions (o a)).
  { intros a. unfold o2. rewrite inner_loop_dimensions.
    apply only_flags_dimensions, outer_loop_only_flags. }
  assert (Hup3 : invalidated (o3 up) = true).
  { apply pair_step_lower_survives; [congruence|done|by rewrite !Hd2]. }
  assert (Hup4 : invalidated (o4 up) = true).
  { apply inner_loop_keeps; [done|]. by intros ?. }
  destruct (invalidated (outer_loop ((l1 ++ lo :: l2) ++ [up]) l3 o4 up)) eqn:E;
    [by left|right].
  destruct (outer_loop_cleared ((l1 ++ lo :: l2) ++ [up]) l3 o4 up)
    as (r1 & t & r2 & Hsplit & _ & Ht & Hc); try done.
  { rewrite <- !app_assoc. simpl. exact Hnd. }
  rewrite !Hd4 in Hc. by exists r1, t, r2.
Qed.

Lemma range_covered_clean :
  contains (dimensions (o up)) (dimensions (o lo)) = true →
  overlap (dimensions (o up)) (dimensions (o lo)) = true →
  invalidated (outer_loop [] rest o lo) = false.
Proof using Hnd.
  intros Hc Hov.
  destruct (invalidated (outer_loop [] rest o lo)) eqn:Hend; [|done].
  pose proof (range_lower_at_pair Hend) as Hlo3.
  destruct (range_facts l1 l2 l3 lo up Hnd) as (Hne & _).
  set (o2 := inner_loop up l1 (outer_loop [] (l1 ++ lo :: l2) o)) in *.
  assert (Hd2 : ∀ a, dimensions (o2 a) = dimensions (o a)).
  { intros a. unfold o2. rewrite inner_loop_dimensions.
    apply only_flags_dimensions, outer_loop_only_flags. }
  rewrite pair_step_covered_clears in Hlo3; [done|congruence| |];
    by rewrite !Hd2.
Qed.

End range_end.

Lemma drop_lookup_above (l : list addr) j r1 t r2 :
  drop (S j) l = r1 ++ t :: r2 → ∃ m, j < m ∧ l !! m = Some t.
Proof.
  intros H. exists (S j + length r1). split; [lia|].
  rewrite <- lookup_drop, H. by rewrite list_lookup_middle.
Qed.

(** X12.  What the pass guarantees when it ends: a UI of the enabled
    range whose rectangle overlaps an invalidated UI below it is itself
    invalidated, or its rectangle is contained in an invalidated UI above
    it. *)
Theorem consistency_propagates (w : world) (i j : nat) (lo up : addr) :
  let o := objs w in
  let w' := invalidation_consistency_and_optimization w in
  NoDup (ui_stack w) →
  first_index o (ui_stack w) ≤ i → i < j →
  ui_stack w !! i = Some lo → ui_stack w !! j = Some up →
  overlap (dimensions (o up)) (dimensions (o lo)) = true →
  invalidated (objs w' lo) = true →
  invalidated (objs w' up) = true ∨
  ∃ m t, j < m ∧ ui_stack w !! m = Some t ∧
         invalidated (objs w' t) = true ∧
         contains (dimensions (o t)) (dimensions (o up)) = true.
Proof.
  intros o w' Hnd Hki Hij Hlo Hup Hov Hend.
  destruct (drop_split_two _ _ _ _ _ _ Hki Hij Hlo Hup) as (l1 & l2 & Hsplit & _).
  assert (Hnd' : NoDup (l1 ++ lo :: l2 ++ up :: drop (S j) (ui_stack w))).
  { rewrite <- Hsplit. by apply NoDup_drop. }
  unfold w', invalidation_consistency_and_optimization, consistency, enabled in *.
  simpl in *. fold o in Hend |- *. rewrite Hsplit in *.
  destruct (range_propagates _ _ _ _ _ o Hnd' Hov Hend)
    as [?|(r1 & t & r2 & H3 & Ht & Hc)]; [by left|right].
  destruct (drop_lookup_above _ _ _ _ _ H3) as (m & Hm & Hmt).
  by exists m, t.
Qed.

Lemma consistency_propagates_witness :
  invalidated (objs (invalidation_consistency_and_optimization
                       two_overlapping_covered) 1) = true ∨
  ∃ m t, 1 < m ∧ ui_stack two_overlapping_covered !! m = Some t ∧
         invalidated (objs (invalidation_consistency_and_optimization
                              two_overlapping_covered) t) = true ∧
         contains (dimensions (objs two_overlapping_covered t))
                  (dimensions (objs two_overlapping_covered 1)) = true.
Proof.
  apply (consistency_propagates two_overlapping_covered 0 1 0 1);
    try reflexivity; [exact (NoDup_seq 0 3)|lia].
Defined.

(** X13.  When the pass ends, no UI of the enabled range with a
    non-degenerate rectangle that some UI above it contains is invalidated,
    whatever the flags were before. *)
Theorem consistency_covered_clean (w : world) (i j : nat) (lo up : addr) :
  let o := objs w in
  NoDup (ui_stack w) →
  first_index o (ui_stack w) ≤ i → i < j →
  ui_stack w !! i = Some lo → ui_stack w !! j = Some up →
  contains (dimensions (o up)) (dimensions (o lo)) = true →
  degenerate (dimensions (o lo)) = false →
  invalidated (objs (invalidation_consistency_and_optimization w) lo) = false.
Proof.
  intros o Hnd Hki Hij Hlo Hup Hc Hdeg.
  destruct (drop_split_two _ _ _ _ _ _ Hki Hij Hlo Hup) as (l1 & l2 & Hsplit & _).
  assert (Hnd' : NoDup (l1 ++ lo :: l2 ++ up :: drop (S j) (ui_stack w))).
  { rewrite <- Hsplit. by apply NoDup_drop. }
  unfold invalidation_consistency_and_optimization, consistency, enabled.
  simpl. fold o. rewrite Hsplit.
  apply range_covered_clean; [done|done|].
  by apply contains_overlap_nondegenerate.
Qed.

Lemma consistency_covered_clean_witness :
  invalidated (objs (invalidation_consistency_and_optimization nested_triple) 0) = false.
Proof.
  apply (consistency_covered_clean nested_triple 0 2 0 2); try reflexivity;
    [exact (NoDup_seq 0 3)|lia].
Defined.

Lemma pair_step_set_reason u o l :
  invalidated (o u) = false → invalidated (pair_step u o l u) = true →
  overlap (dimensions (o u)) (dimensions (o l)) = true.
Proof.
  intros Hu Hset.
  destruct (invalidated (o l)) eqn:El;
    [|rewrite pair_step_clean in Hset by done; congruence].
  unfold pair_step in Hset. rewrite Hu, El in Hset. simpl in Hset.
  destruct (overlap _ _); [done|]. rewrite Hu in Hset. simpl in Hset. congruence.
Qed.

Lemma inner_loop_set_reason u ls o :
  invalidated (o u) = false → invalidated (inner_loop u ls o u) = true →
  ∃ l, l ∈ ls ∧ overlap (dimensions (o u)) (dimensions (o l)) = true.
Proof.
  revert o. induction ls as [|l ls IH]; intros o Hu Hset; simpl in *; [congruence|].
  destruct (invalidated (pair_step u o l u)) eqn:E.
  - exists l. split; [left|]. by eapply pair_step_set_reason.
  - destruct (IH _ E Hset) as (l' & Hl' & Hov).
    rewrite !pair_step_dimensions in Hov. exists l'. split; [by right|done].
Qed.

Lemma outer_loop_set_reason seen rest o a :
  NoDup (seen ++ rest) →
  invalidated (o a) = false → invalidated (outer_loop seen rest o a) = true →
  ∃ r1 r2 l, rest = r1 ++ a :: r2 ∧ l ∈ seen ++ r1 ∧
             overlap (dimensions (o a)) (dimensions (o l)) = true.
Proof.
  revert seen o. induction rest as [|u rest IH]; intros seen o Hnd Ha Hset.
  - simpl in Hset. congruence.
  - simpl in *.
    assert (Hnd' : NoDup ((seen ++ [u]) ++ rest)) by (by rewrite <- app_assoc).
    destruct (decide (u = a)) as [->|Hne].
    + destruct (invalidated (inner_loop a seen o a)) eqn:E.
      * destruct (inner_loop_set_reason _ _ _ Ha E) as (l & Hl & Hov).
        exists [], rest, l. split; [done|]. split; [by rewrite app_nil_r|done].
      * rewrite outer_loop_never_set in Hset; [done|done|].
        apply NoDup_app in Hnd as (_ & _ & Hnd).
        by apply NoDup_cons in Hnd as [? _].
    + assert (E : invalidated (inner_loop u seen o a) = false).
      { by apply inner_loop_never_set. }
      destruct (IH _ _ Hnd' E Hset) as (r1 & r2 & l & -> & Hl & Hov).
      rewrite !inner_loop_dimensions in Hov.
      exists (u :: r1), r2, l. split; [done|]. split; [|done].
      by rewrite <- app_assoc in Hl.
Qed.

(** X14.  The pass sets the flag of a UI only when a UI below it in the
    enabled range has a rectangle that overlaps its rectangle. *)
Theorem consistency_sets_only_overlapped (w : world) (i : nat) (a : addr) :
  let o := objs w in
  NoDup (ui_stack w) → ui_stack w !! i = Some a →
  invalidated (o a) = false →
  invalidated (objs (invalidation_consistency_and_optimization w) a) = true →
  ∃ i' l, first_index o (ui_stack w) ≤ i' ∧ i' < i ∧
          ui_stack w !! i' = Some l ∧
          overlap (dimensions (o a)) (dimensions (o l)) = true.
Proof.
  intros o Hnd Ha Hinv Hset. simpl in Hset. unfold consistency, enabled in Hset.
  fold o in Hset. set (k := first_index o (ui_stack w)) in *.
  destruct (outer_loop_set_reason [] _ _ _ (NoDup_drop _ k Hnd) Hinv Hset)
    as (r1 & r2 & l & Hsplit & [n Hn]%list_elem_of_lookup & Hov).
  simpl in Hn.
  assert (Hl : ui_stack w !! (k + n) = Some l).
  { rewrite <- lookup_drop, Hsplit. by apply lookup_app_l_Some. }
  assert (Ha' : ui_stack w !! (k + length r1) = Some a).
  { rewrite <- lookup_drop, Hsplit. by rewrite list_lookup_middle. }
  assert (i = k + length r1) by (by eapply NoDup_lookup).
  apply lookup_lt_Some in Hn.
  exists (k + n), l. repeat split; [lia|lia|done|done].
Qed.

Lemma consistency_sets_only_overlapped_witness :
  ∃ i' l, first_index (objs two_overlapping) (ui_stack two_overlapping) ≤ i' ∧ i' < 1 ∧
          ui_stack two_overlapping !! i' = Some l ∧
          overlap (dimensions (objs two_overlapping 1))
                  (dimensions (objs two_overlapping l)) = true.
Proof.
  apply (consistency_sets_only_overlapped two_overlapping 1 1); try reflexivity.
  exact (NoDup_seq 0 2).
Defined.

(** ** Region invalidation as a whole *)

Lemma mark_region_other rect stack o a :
  a ∉ stack → mark_region rect stack o a = o a.
Proof.
  revert o. induction stack as [|s stack IH]; intros o Hn; simpl; [done|].
  apply not_elem_of_cons in Hn as [Hne Hn].
  fold (mark_region rect stack (mark_step rect o s)). rewrite IH by done.
  unfold mark_step. case_match; [|done].
  rewrite set_inv_lookup. by rewrite decide_False.
Qed.

Lemma enabled_subseteq o stack a : a ∈ enabled o stack → a ∈ stack.
Proof. intros (m & _ & Hm)%elem_of_drop_lookup. by eapply list_elem_of_lookup_2. Qed.

(** X15.  [invalidate] writes [invalidated] flags only, and only on UIs
    that are on the stack; the stack, the test-mode flag and the logged
    calls are as before. *)
Theorem invalidate_frame (rect : rectangle) (reenable_uis_below : bool) (w : world) :
  let w' := invalidate rect reenable_uis_below w in
  only_flags (objs w) (objs w') ∧
  (∀ a, a ∉ ui_stack w → objs w' a = objs w a) ∧
  ui_stack w' = ui_stack w ∧ test_mode w' = test_mode w ∧ events w' = events w.
Proof.
  intros w'. split; [apply invalidate_only_flags|]. split.
  - intros a Ha. unfold w', invalidate.
    assert (Hout : ∀ o, a ∉ enabled o (ui_stack w)).
    { intros o Hin. by apply Ha, (enabled_subseteq o). }
    repeat case_match; simpl; rewrite ?consistency_outside by done;
      [done|done|by apply mark_region_other].
  - unfold w', invalidate. by repeat case_match.
Qed.

Lemma invalidate_reaches (rect : rectangle) (b : bool) (w : world) (i : nat) (a : addr) :
  let w' := invalidate rect b w in
  NoDup (ui_stack w) → degenerate rect = false →
  ui_stack w !! i = Some a →
  overlap (dimensions (objs w a)) rect = true →
  invalidated (objs w' a) = true ∨
  ∃ m t, i < m ∧ ui_stack w !! m = Some t ∧
         invalidated (objs w' t) = true ∧
         contains (dimensions (objs w t)) (dimensions (objs w a)) = true.
Proof.
  intros w' Hnd Hdeg Ha Hov. unfold w', invalidate. rewrite Hdeg. simpl.
  set (marked := mark_region rect (ui_stack w) (objs w)).
  assert (Hm : invalidated (marked a) = true).
  { apply mark_region_invalidated. right. split; [|done].
    by eapply list_elem_of_lookup_2. }
  destruct (invalidated (consistency (ui_stack w) marked a)) eqn:E; [by left|right].
  destruct (consistency_cleared_covered _ _ _ _ Hnd Ha Hm E) as (m & t & ? & ? & ? & Hc).
  exists m, t. repeat split; try done.
  by rewrite !(only_flags_dimensions (objs w) marked) in Hc
    by apply mark_region_only_flags.
Qed.

(** X16.  After [invalidate] on a non-degenerate rectangle, every UI of a
    duplicate-free stack whose rectangle overlaps the rectangle is
    invalidated, or its rectangle is contained in an invalidated UI above
    it. *)
Theorem invalidate_covers (rect : rectangle) (reenable_uis_below : bool)
    (w : world) (i : nat) (a : addr) :
  let w' := invalidate rect reenable_uis_below w in
  NoDup (ui_stack w) → degenerate rect = false →
  ui_stack w !! i = Some a →
  overlap (dimensions (objs w a)) rect = true →
  invalidated (objs w' a) = true ∨
  ∃ m t, i < m ∧ ui_stack w !! m = Some t ∧
         invalidated (objs w' t) = true ∧
         contains (dimensions (objs w t)) (dimensions (objs w a)) = true.
Proof.
  intros w' Hnd Hdeg Ha Hov. unfold w', invalidate. rewrite Hdeg. simpl.
  set (marked := mark_region rect (ui_stack w) (objs w)).
  assert (Hfl : only_flags (objs w) marked) by apply mark_region_only_flags.
  assert (Hm : invalidated (marked a) = true).
  { apply mark_region_invalidated. right. split; [|done].
    by eapply list_elem_of_lookup_2. }
  destruct (invalidated (consistency (ui_stack w) marked a)) eqn:E; [by left|right].
  destruct (consistency_cleared_covered _ _ _ _ Hnd Ha Hm E) as (m & t & ? & ? & ? & Hc).
  exists m, t. repeat split; try done.
  by rewrite !(only_flags_dimensions (objs w) marked) in Hc by done.
Qed.

Lemma invalidate_covers_witness :
  invalidated (objs (invalidate (rect 0 0 1 1) false small_under_large) 0) = true ∨
  ∃ m t, 0 < m ∧ ui_stack small_under_large !! m = Some t ∧
         invalidated (objs (invalidate (rect 0 0 1 1) false small_under_large) t) = true ∧
         contains (dimensions (objs small_under_large t))
                  (dimensions (objs small_under_large 0)) = true.
Proof.
  apply (invalidate_covers (rect 0 0 1 1) false small_under_large 0 0);
    try reflexivity.
  exact (NoDup_seq 0 2).
Defined.

(** X17.  After [invalidate_ui] on a UI of the stack, that UI is
    invalidated or some UI above it has a rectangle that contains its
    rectangle; nothing but [invalidated] flags has changed. *)
Theorem invalidate_ui_guarantee (self : addr) (w : world) :
  self ∈ ui_stack w →
  let w' := invalidate_ui self w in
  (invalidated (objs w' self) = true ∨
   covered_above (objs w) (ui_stack w) self) ∧
  only_flags (objs w) (objs w') ∧ ui_stack w' = ui_stack w.
Proof.
  intros Hin w'. unfold w'.
  destruct (invalidate_ui_skips_dec self w) as [Hs|Hns].
  - rewrite (invalidate_ui_skip self w Hs).
    split; [|split; [apply only_flags_refl|done]].
    destruct Hs as [?|[?|?]]; [by left|done|by right].
  - destruct (invalidate_ui_marks self w Hns) as (-> & _ & Hset).
    split; [by left|]. split; [|done]. simpl.
    eapply only_flags_trans; [apply only_flags_set_inv|apply consistency_only_flags].
Qed.

Lemma invalidate_ui_guarantee_witness :
  invalidated (objs (invalidate_ui 0 small_under_large) 0) = true ∨
  covered_above (objs small_under_large) (ui_stack small_under_large) 0.
Proof.
  destruct (invalidate_ui_guarantee 0 small_under_large) as [H _]; [left|exact H].
Defined.

(** ** position, reset and the destructor *)

Lemma invalidate_off_stack rect b w a :
  a ∉ ui_stack w → objs (invalidate rect b w) a = objs w a.
Proof.
  intros Ha. unfold invalidate.
  assert (Hout : ∀ o, a ∉ enabled o (ui_stack w)).
  { intros o Hin. by apply Ha, (enabled_subseteq o). }
  repeat case_match; simpl; rewrite ?consistency_outside by done;
    [done|done|by apply mark_region_other].
Qed.

Lemma position_self b topleft size self w :
  let w' := position b topleft size self w in
  objs w' self =
  with_invalidated (invalidated (objs w' self))
                   (with_dimensions (new_dimensions b topleft size) (objs w self)).
Proof.
  intros w'. unfold w', position.
  rewrite (invalidate_only_flags _ _ _ self) at 1. simpl.
  rewrite moved_lookup. by rewrite decide_True.
Qed.

Lemma position_other b topleft size self w a :
  a ≠ self →
  let w' := position b topleft size self w in
  objs w' a = with_invalidated (invalidated (objs w' a)) (objs w a).
Proof.
  intros Ha w'. unfold w', position.
  rewrite (invalidate_only_flags _ _ _ a) at 1. simpl.
  rewrite moved_lookup. by rewrite decide_False.
Qed.

Lemma position_ui_stack b topleft size self w :
  ui_stack (position b topleft size self w) = ui_stack w.
Proof. unfold position. by rewrite invalidate_ui_stack. Qed.

(** X18.  [position] changes the rectangle of the UI it is called on and
    [invalidated] flags, and nothing else: the stack is as before, every
    other UI keeps its rectangle, its other flags and its callbacks, a UI
    that is not on the stack is not touched at all, and the moved UI keeps
    everything but its rectangle and its flag. *)
Theorem position_frame (b : build) (topleft size : point) (self : addr) (w : world) :
  let w' := position b topleft size self w in
  ui_stack w' = ui_stack w ∧
  (∀ a, a ≠ self →
        objs w' a = with_invalidated (invalidated (objs w' a)) (objs w a)) ∧
  (∀ a, a ≠ self → a ∉ ui_stack w → objs w' a = objs w a) ∧
  objs w' self =
    with_invalidated (invalidated (objs w' self))
                     (with_dimensions (new_dimensions b topleft size) (objs w self)).
Proof.
  intros w'. split; [apply position_ui_stack|]. split; [|split].
  - intros a Ha. by apply position_other.
  - intros a Ha Hout. unfold w', position.
    rewrite invalidate_off_stack by done. simpl.
    rewrite moved_lookup. by rewrite decide_False.
  - apply position_self.
Qed.

(** X19.  After [position] on a UI whose former rectangle was not
    degenerate, every other UI of a duplicate-free stack that overlaps the
    former rectangle is invalidated, or is contained in an invalidated UI
    above it. *)
Theorem position_reclaims (b : build) (topleft size : point) (self : addr)
    (w : world) (i : nat) (a : addr) :
  let w' := position b topleft size self w in
  NoDup (ui_stack w) →
  degenerate (dimensions (objs w self)) = false →
  ui_stack w !! i = Some a → a ≠ self →
  overlap (dimensions (objs w a)) (dimensions (objs w self)) = true →
  invalidated (objs w' a) = true ∨
  ∃ m t, i < m ∧ ui_stack w !! m = Some t ∧
         invalidated (objs w' t) = true ∧
         contains (dimensions (objs w' t)) (dimensions (objs w' a)) = true.
Proof.
  intros w' Hnd Hdeg Ha Hne Hov.
  set (w2 := set_invalidated self true
               (set_dimensions self (new_dimensions b topleft size) w)).
  assert (Hw' : w' = invalidate (dimensions (objs w self)) false w2) by done.
  assert (Hd : ∀ c, dimensions (objs w' c) = dimensions (objs w2 c)).
  { intros c. rewrite Hw'. apply only_flags_dimensions, invalidate_only_flags. }
  assert (Ha2 : objs w2 a = objs w a).
  { unfold w2. simpl. rewrite moved_lookup. by rewrite decide_False. }
  destruct (invalidate_reaches (dimensions (objs w self)) false w2 i a)
    as [?|(m & t & ? & ? & ? & Hc)]; try done.
  - by rewrite Ha2.
  - left. by rewrite Hw'.
  - right. exists m, t. rewrite !Hd, Hw'. done.
Qed.

Lemma position_reclaims_witness :
  let w' := position Curses (Point 20 20) (Point 5 5) 0 two_overlapping in
  invalidated (objs w' 1) = true ∨
  ∃ m t, 1 < m ∧ ui_stack two_overlapping !! m = Some t ∧
         invalidated (objs w' t) = true ∧
         contains (dimensions (objs w' t)) (dimensions (objs w' 1)) = true.
Proof.
  apply (position_reclaims Curses (Point 20 20) (Point 5 5) 0 two_overlapping 1 1);
    try reflexivity; [exact (NoDup_seq 0 2)|done].
Defined.

(** X20.  [reset] in a build without [TILES] leaves the UI with no
    callbacks and the empty rectangle at the origin; the stack is as before
    and every other UI keeps everything but its [invalidated] flag. *)
Theorem reset_effect (self : addr) (w : world) :
  let w' := reset Curses self w in
  redraw_cb (objs w' self) = None ∧
  screen_resized_cb (objs w' self) = None ∧
  dimensions (objs w' self) = Rectangle point_zero point_zero ∧
  disabling_uis_below (objs w' self) = disabling_uis_below (objs w self) ∧
  deferred_resize (objs w' self) = deferred_resize (objs w self) ∧
  ui_stack w' = ui_stack w ∧
  (∀ a, a ≠ self →
        objs w' a = with_invalidated (invalidated (objs w' a)) (objs w a)).
Proof.
  intros w'. unfold w', reset.
  set (w1 := on_redraw None self (on_screen_resize None self w)).
  assert (H1 : objs w1 self =
            with_redraw_cb None (with_screen_resized_cb None (objs w self))).
  { unfold w1, on_redraw, on_screen_resize. simpl.
    by rewrite !store_insert_eq. }
  assert (H1' : ∀ a, a ≠ self → objs w1 a = objs w a).
  { intros a Ha. unfold w1, on_redraw, on_screen_resize. simpl.
    by rewrite !store_insert_ne. }
  rewrite (position_self Curses point_zero point_zero self w1), H1.
  repeat split.
  - rewrite position_ui_stack. done.
  - intros a Ha.
    rewrite (position_other Curses point_zero point_zero self w1 a Ha) at 1.
    by rewrite H1'.
Qed.

(** X21.  After the destruction of a UI with a non-degenerate rectangle
    that was on a duplicate-free stack, every UI left on the stack whose
    rectangle overlaps the rectangle of the destroyed one is invalidated,
    or is contained in an invalidated UI above it. *)
Theorem destruct_ui_uncovers (self : addr) (w : world) (i : nat) (a : addr) :
  let w' := destruct_ui self w in
  NoDup (ui_stack w) → self ∈ ui_stack w →
  degenerate (dimensions (objs w self)) = false →
  ui_stack w' !! i = Some a →
  overlap (dimensions (objs w a)) (dimensions (objs w self)) = true →
  invalidated (objs w' a) = true ∨
  ∃ m t, i < m ∧ ui_stack w' !! m = Some t ∧
         invalidated (objs w' t) = true ∧
         contains (dimensions (objs w t)) (dimensions (objs w a)) = true.
Proof.
  intros w' Hnd Hin Hdeg Ha Hov. unfold w', destruct_ui in *.
  destruct (erase_last self (ui_stack w)) as [stack'|] eqn:E.
  - rewrite invalidate_ui_stack in *. simpl in *.
    apply (invalidate_reaches _ _ (World (objs w) stack' _ _)); try done.
    simpl. eapply sublist_NoDup; [done|by eapply erase_last_sublist].
  - apply erase_last_None in E. done.
Qed.

Lemma destruct_ui_uncovers_witness :
  let w' := destruct_ui 1 nested_pair in
  invalidated (objs w' 0) = true ∨
  ∃ m t, 0 < m ∧ ui_stack w' !! m = Some t ∧
         invalidated (objs w' t) = true ∧
         contains (dimensions (objs nested_pair t)) (dimensions (objs nested_pair 0)) = true.
Proof.
  apply (destruct_ui_uncovers 1 nested_pair 0 0); try reflexivity.
  - exact (NoDup_seq 0 2).
  - right. left.
Defined.

(** ** The scheduler as a whole *)

Lemma existsb_elem_of {A} (f : A → bool) (l : list A) :
  existsb f l = true ↔ ∃ a, a ∈ l ∧ f a = true.
Proof.
  rewrite existsb_exists. by setoid_rewrite list_elem_of_In.
Qed.

Lemma mark_loop_lookup (l : list addr) (w : world) (a : addr) :
  objs (foldl (λ w a, set_deferred_resize a true w) w l) a =
  if decide (a ∈ l) then with_deferred_resize true (objs w a) else objs w a.
Proof.
  revert w. induction l as [|s l IH]; intros w; cbn [foldl].
  - destruct (decide (a ∈ [])) as [?%elem_of_nil|]; done.
  - rewrite IH. cbn [objs set_deferred_resize with_objs].
    destruct (decide (s = a)) as [->|Hne].
    + rewrite store_insert_eq.
      destruct (decide (a ∈ a :: l)) as [_|Hn]; [by case_decide|].
      destruct Hn. left.
    + rewrite store_insert_ne by done.
      destruct (decide (a ∈ l)), (decide (a ∈ s :: l)) as [Hin|Hn]; try done.
      * destruct Hn. by right.
      * apply elem_of_cons in Hin as [?|?]; congruence.
Qed.

Lemma mark_loop_ui_stack (l : list addr) (w : world) :
  ui_stack (foldl (λ w a, set_deferred_resize a true w) w l) = ui_stack w.
Proof. revert w. induction l as [|s l IH]; intros w; simpl; [done|]. by rewrite IH. Qed.

Section scheduler_more.
Variable run_redraw_cb : cb_id → addr → world → world.
Variable run_resize_cb : cb_id → addr → world → world.

Lemma resize_step_other w b a :
  callbacks_keep run_redraw_cb run_resize_cb a → a ≠ b → objs (resize_step run_resize_cb w b) a = objs w a.
Proof.
  intros [_ Hcb] Hne. unfold resize_step. case_match; [|done]. simpl.
  rewrite store_insert_ne by done. case_match; [apply Hcb|done].
Qed.

Lemma redraw_step_other w b a :
  callbacks_keep run_redraw_cb run_resize_cb a → a ≠ b → objs (redraw_step run_redraw_cb w b) a = objs w a.
Proof.
  intros [Hcb _] Hne. unfold redraw_step. case_match; [|done]. simpl.
  rewrite set_inv_lookup, decide_False by done. case_match; [apply Hcb|done].
Qed.

Lemma resize_loop_other range w a :
  callbacks_keep run_redraw_cb run_resize_cb a → a ∉ range →
  objs (foldl (resize_step run_resize_cb) w range) a = objs w a.
Proof.
  intros Hcb. revert w. induction range as [|b range IH]; intros w Hn; simpl; [done|].
  apply not_elem_of_cons in Hn as [??].
  rewrite IH by done. by apply resize_step_other.
Qed.

Lemma redraw_loop_other range w a :
  callbacks_keep run_redraw_cb run_resize_cb a → a ∉ range →
  objs (foldl (redraw_step run_redraw_cb) w range) a = objs w a.
Proof.
  intros Hcb. revert w. induction range as [|b range IH]; intros w Hn; simpl; [done|].
  apply not_elem_of_cons in Hn as [??].
  rewrite IH by done. by apply redraw_step_other.
Qed.

Lemma redraw_invalidated_outside w a :
  callbacks_keep run_redraw_cb run_resize_cb a → a ∉ enabled (objs w) (ui_stack w) →
  objs (redraw_invalidated run_redraw_cb run_resize_cb w) a = objs w a.
Proof.
  intros Hcb Hout. unfold redraw_invalidated. case_match; [done|]. simpl.
  unfold redraw_phase, resize_phase.
  repeat case_match; cbn [objs log_event];
    rewrite ?redraw_loop_other by done; cbn [objs log_event];
    rewrite ?resize_loop_other by done; done.
Qed.

(** X22.  [redraw_invalidated] neither resizes nor redraws a UI below the
    enabled range: when the callbacks that run leave such a UI alone, it is
    after the call exactly as before, pending flags included. *)
Theorem redraw_invalidated_skips_disabled (w : world) (i : nat) (a : addr) :
  callbacks_keep run_redraw_cb run_resize_cb a →
  NoDup (ui_stack w) → ui_stack w !! i = Some a →
  i < first_index (objs w) (ui_stack w) →
  objs (redraw_invalidated run_redraw_cb run_resize_cb w) a = objs w a.
Proof.
  intros Hcb Hnd Ha Hi. apply redraw_invalidated_outside; [done|].
  by eapply below_not_in_drop.
Qed.

(** X23.  [screen_resized] marks every UI of the stack for resizing, and
    a UI below the enabled range is still marked when it returns, provided
    the callbacks that run leave that UI alone. *)
Theorem screen_resized_marks_disabled (w : world) (i : nat) (a : addr) :
  callbacks_keep run_redraw_cb run_resize_cb a →
  NoDup (ui_stack w) → ui_stack w !! i = Some a →
  i < first_index (objs w) (ui_stack w) →
  (∀ c, c ∈ ui_stack w → deferred_resize (objs (mark_all_resize w) c) = true) ∧
  deferred_resize (objs (screen_resized run_redraw_cb run_resize_cb w) a) = true.
Proof.
  intros Hcb Hnd Ha Hi.
  assert (Hmark : ∀ c, c ∈ ui_stack w →
            deferred_resize (objs (mark_all_resize w) c) = true).
  { intros c Hc. unfold mark_all_resize. rewrite mark_loop_lookup.
    by rewrite decide_True. }
  split; [done|]. unfold screen_resized, redraw.
  set (wm := mark_all_resize w).
  assert (Hstack : ui_stack wm = ui_stack w) by apply mark_loop_ui_stack.
  assert (Hdis : ∀ c, disabling_uis_below (objs wm c) = disabling_uis_below (objs w c)).
  { intros c. unfold wm, mark_all_resize. rewrite mark_loop_lookup. by case_decide. }
  set (wt := match last (ui_stack wm) with
             | Some top => set_invalidated top true wm
             | None => wm
             end).
  assert (Hstack' : ui_stack wt = ui_stack w).
  { unfold wt. by destruct (last (ui_stack wm)). }
  assert (Hobj : ∀ c, objs wt c = with_invalidated (invalidated (objs wt c)) (objs wm c)).
  { intros c. unfold wt. destruct (last (ui_stack wm)); simpl.
    - apply only_flags_set_inv.
    - by rewrite with_invalidated_eta. }
  rewrite redraw_invalidated_outside; [| done |].
  - rewrite Hobj. simpl. apply Hmark. by eapply list_elem_of_lookup_2.
  - rewrite Hstack'. unfold enabled.
    rewrite (first_index_agree (objs w)).
    + by eapply below_not_in_drop.
    + intros c _. rewrite Hobj. simpl. apply Hdis.
Qed.

Lemma resize_step_clears w a :
  deferred_resize (objs (resize_step run_resize_cb w a) a) = false.
Proof.
  unfold resize_step. destruct (deferred_resize (objs w a)) eqn:E; [|done].
  simpl. by rewrite store_insert_eq.
Qed.

Lemma resize_step_never_marks w b a :
  resize_cbs_do_not_mark run_resize_cb →
  deferred_resize (objs (resize_step run_resize_cb w b) a) = true →
  deferred_resize (objs w a) = true.
Proof.
  intros Hcb. unfold resize_step.
  destruct (deferred_resize (objs w b)) eqn:E; [|done]. simpl.
  destruct (decide (b = a)) as [->|Hne].
  - by rewrite store_insert_eq.
  - rewrite store_insert_ne by done.
    destruct (screen_resized_cb (objs w b)); [apply Hcb|done].
Qed.

Lemma resize_loop_never_marks range w a :
  resize_cbs_do_not_mark run_resize_cb →
  deferred_resize (objs (foldl (resize_step run_resize_cb) w range) a) = true →
  deferred_resize (objs w a) = true.
Proof.
  intros Hcb. revert w. induction range as [|b range IH]; intros w; simpl; [done|].
  intros H%IH. by eapply resize_step_never_marks.
Qed.

(** X24.  When some UI of the range is marked for resizing and has a
    resize callback, the resize phase leaves no UI of the range marked,
    with or without a callback of its own, provided no resize callback
    marks a UI; when no UI of the range is marked with a callback, the
    phase does nothing. *)
Theorem resize_phase_clears (range : list addr) (w : world) :
  (needs_resize range w = true → resize_cbs_do_not_mark run_resize_cb →
   ∀ a, a ∈ range →
        deferred_resize (objs (resize_phase run_resize_cb range w) a) = false) ∧
  (needs_resize range w = false → resize_phase run_resize_cb range w = w).
Proof.
  unfold resize_phase. split.
  - intros -> Hcb a (r1 & r2 & ->)%list_elem_of_split. simpl.
    rewrite foldl_app. simpl.
    destruct (deferred_resize (objs (foldl _ _ r2) a)) eqn:E; [|done].
    apply resize_loop_never_marks in E; [|done].
    by rewrite resize_step_clears in E.
  - by intros ->.
Qed.

Lemma needs_resize_only_flags range w w' :
  only_flags (objs w) (objs w') → needs_resize range w' = needs_resize range w.
Proof.
  intros H. unfold needs_resize. induction range as [|a range IH]; simpl; [done|].
  rewrite IH. by rewrite (H a).
Qed.

(** X25.  With test mode off, [redraw] on a stack whose topmost UI has a
    redraw callback, with no resize pending in the enabled range and
    redraw callbacks that invalidate nothing, leaves every UI of the
    enabled range with its flag clear. *)
Theorem redraw_cleans_range (w : world) (top : addr) (cb : cb_id) :
  let range := enabled (objs w) (ui_stack w) in
  test_mode w = false →
  last (ui_stack w) = Some top →
  redraw_cb (objs w top) = Some cb →
  needs_resize range w = false →
  redraw_cbs_do_not_invalidate run_redraw_cb →
  ∀ a, a ∈ range →
       invalidated (objs (redraw run_redraw_cb run_resize_cb w) a) = false.
Proof.
  intros range Htest Htop Hcb Hres Hcbs a Ha.
  unfold redraw. rewrite Htop.
  set (w0 := set_invalidated top true w).
  assert (Hfl : only_flags (objs w) (objs w0)) by apply only_flags_set_inv.
  assert (Hne : ui_stack w0 ≠ []).
  { simpl. intros Hnil. by rewrite Hnil in Htop. }
  unfold redraw_invalidated.
  change (test_mode w0) with (test_mode w). rewrite Htest.
  rewrite bool_decide_eq_false_2 by done. simpl.
  rewrite (enabled_only_flags (objs w)) by done. fold range.
  unfold resize_phase.
  rewrite (needs_resize_only_flags range w w0 Hfl), Hres.
  unfold redraw_phase.
  assert (Hneed : needs_redraw range w0 = true).
  { apply existsb_elem_of. exists top. split; [by apply last_in_enabled|].
    simpl. rewrite set_inv_lookup, decide_True by done. simpl. by rewrite Hcb. }
  rewrite Hneed. by apply redraw_loop_clears.
Qed.

End scheduler_more.

Lemma redraw_invalidated_skips_disabled_witness :
  objs (redraw_invalidated drawing_only drawing_only blocked_dirty) 0 =
  objs blocked_dirty 0.
Proof.
  apply (redraw_invalidated_skips_disabled drawing_only drawing_only blocked_dirty 0 0).
  - split; by intros cb self w.
  - exact (NoDup_seq 0 2).
  - reflexivity.
  - vm_compute. lia.
Defined.

Lemma screen_resized_marks_disabled_witness :
  deferred_resize (objs (screen_resized drawing_only drawing_only blocked_dirty) 0) = true.
Proof.
  destruct (screen_resized_marks_disabled drawing_only drawing_only blocked_dirty 0 0)
    as [_ H]; [split; by intros cb self w|exact (NoDup_seq 0 2)|reflexivity
              |vm_compute; lia|exact H].
Defined.

Lemma redraw_cleans_range_witness :
  invalidated (objs (redraw drawing_only drawing_only one_callback) 0) = false.
Proof.
  apply (redraw_cleans_range drawing_only drawing_only one_callback 1 0);
    try reflexivity; [by intros cb self w a|left].
Defined.

Lemma resize_phase_clears_witness :
  deferred_resize (objs (resize_phase drawing_only [0; 1] resize_pending) 0) = false.
Proof.
  destruct (resize_phase_clears drawing_only [0; 1] resize_pending) as [H _].
  apply H; [reflexivity|by intros cb self w a|left].
Defined.
